(** * fluent_anvil: the resource fetcher, the fallback bundle generator and
      the initialization entry point of [js_library/src/fluent_anvil.js]

    The JavaScript module is embedded shallowly.  Strings are Rocq strings
    (one character per code unit), the two error containers live in an
    explicit store so that aliasing between [errors.entries] and the arrays
    handed to the caller is visible, and the asynchronous generator is a
    small state machine driven by two kinds of events: the consumer asking
    for the next element, and the network settling the pending fetch. *)

From Stdlib Require Import String Ascii.
From stdpp Require Import base tactics option list gmap strings.

Local Open Scope string_scope.
Local Open Scope list_scope.

#[local] Arguments String.append !s1 s2 : simpl nomatch.

(** ** JavaScript strings: [String.prototype.replace] with a string pattern *)

Module JsString.

(** [strip_prefix p s] is [Some r] exactly when [s = p ++ r]. *)
Fixpoint strip_prefix (p s : string) : option string :=
  match p with
  | EmptyString => Some s
  | String c p' =>
      match s with
      | EmptyString => None
      | String d s' => if Ascii.eqb c d then strip_prefix p' s' else None
      end
  end.

(** [split_first pat s] locates the first occurrence of [pat] in [s]
    (JavaScript's StringIndexOf from position 0) and returns the text
    before it and the text after it. *)
Fixpoint split_first (pat s : string) : option (string * string) :=
  match strip_prefix pat s with
  | Some rest => Some (EmptyString, rest)
  | None =>
      match s with
      | EmptyString => None
      | String c s' =>
          match split_first pat s' with
          | Some (before, after) => Some (String c before, after)
          | None => None
          end
      end
  end.

(** GetSubstitution for a string pattern: there are no captures, so the
    only active patterns of the replacement text are [$$], [$&], [$`]
    and [$']; every other character, a lone [$] included, is literal. *)
Fixpoint get_substitution (matched before after repl : string) : string :=
  match repl with
  | EmptyString => EmptyString
  | String c rest =>
      if Ascii.eqb c "$" then
        match rest with
        | String d rest' =>
            if Ascii.eqb d "$" then
              String "$" (get_substitution matched before after rest')
            else if Ascii.eqb d "&" then
              matched +:+ get_substitution matched before after rest'
            else if Ascii.eqb d "`" then
              before +:+ get_substitution matched before after rest'
            else if Ascii.eqb d "'" then
              after +:+ get_substitution matched before after rest'
            else String c (get_substitution matched before after rest)
        | EmptyString => String c EmptyString
        end
      else String c (get_substitution matched before after rest)
  end.

(** [s.replace(pat, repl)] for strings [pat] and [repl]: only the first
    occurrence is replaced; without an occurrence [s] is returned. *)
Definition replace (pat repl s : string) : string :=
  match split_first pat s with
  | Some (before, after) =>
      before +:+ get_substitution pat before after repl +:+ after
  | None => s
  end.

(** [first_at pat b a s]: [s] is [b], then [pat], then [a], and no
    occurrence of [pat] in [s] starts before that one. *)
Definition first_at (pat b a s : string) : Prop :=
  s = b +:+ pat +:+ a /\
  forall b' a', s = b' +:+ pat +:+ a' -> String.length b <= String.length b'.

(** Does [s] contain the character that starts a replacement pattern? *)
Fixpoint has_dollar (s : string) : bool :=
  match s with
  | EmptyString => false
  | String c s' => Ascii.eqb c "$" || has_dollar s'
  end.

End JsString.

(** ** Values, errors and the store *)

Definition loc := nat.

(** A JavaScript [Error] object, as far as the program observes it. *)
Record js_error := { err_name : string; err_message : string }.

(** [Error.prototype.toString]. *)
Definition error_to_string (e : js_error) : string :=
  if String.eqb (err_name e) "" then err_message e
  else if String.eqb (err_message e) "" then err_name e
  else err_name e +:+ ": " +:+ err_message e.

(** [Array.prototype.join] on the string forms of the elements. *)
Fixpoint join (sep : string) (l : list string) : string :=
  match l with
  | [] => ""
  | [x] => x
  | x :: rest => x +:+ sep +:+ join sep rest
  end.

(** What the [entries] property of an error container can hold: nothing,
    a reference to an array of errors, or a primitive string. *)
Inductive value :=
| VUndefined
| VArray (a : loc)
| VString (s : string).

(** The store: the arrays and the error containers allocated so far, the
    URLs handed to [fetch] in order of issue, and the console output. *)
Record store := {
  arrays : gmap loc (list js_error);
  objects : gmap loc value;
  requests : list string;
  console : list string
}.

Definition empty_store : store :=
  {| arrays := ∅; objects := ∅; requests := []; console := [] |}.

Definition alloc_array (elems : list js_error) (st : store) : loc * store :=
  let a := fresh (dom (arrays st)) in
  (a, {| arrays := <[a := elems]> (arrays st); objects := objects st;
         requests := requests st; console := console st |}).

(** [{entries: v}]: a fresh container whose [entries] property is [v]. *)
Definition alloc_object (v : value) (st : store) : loc * store :=
  let o := fresh (dom (objects st)) in
  (o, {| arrays := arrays st; objects := <[o := v]> (objects st);
         requests := requests st; console := console st |}).

(** [errors.entries] *)
Definition get_entries (errors : loc) (st : store) : value :=
  default VUndefined (objects st !! errors).

(** [errors.entries = v] *)
Definition set_entries (errors : loc) (v : value) (st : store) : store :=
  {| arrays := arrays st; objects := <[errors := v]> (objects st);
     requests := requests st; console := console st |}.

Definition log_request (url : string) (st : store) : store :=
  {| arrays := arrays st; objects := objects st;
     requests := requests st ++ [url]; console := console st |}.

Definition console_log (lines : list string) (st : store) : store :=
  {| arrays := arrays st; objects := objects st;
     requests := requests st; console := console st ++ lines |}.

Definition array_elems (a : loc) (st : store) : list js_error :=
  default [] (arrays st !! a).

(** ToString of a value (an array becomes its elements joined by commas). *)
Definition to_string (v : value) (st : store) : string :=
  match v with
  | VUndefined => "undefined"
  | VArray a => join "," (map error_to_string (array_elems a st))
  | VString s => s
  end.

(** [v + errs] where [errs] is an array: both operands are converted to
    primitives, the array to a string, so the result is the concatenation
    of the two string forms. *)
Definition js_plus_array (v : value) (errs : list js_error) (st : store) : value :=
  VString (to_string v st +:+ join "," (map error_to_string errs)).

(** The elements a [for (const entry of v)] loop visits, as strings: the
    characters of a string, the elements of an array; [undefined] is not
    iterable. *)
Definition chars (s : string) : list string :=
  map (fun c => String c EmptyString) (list_ascii_of_string s).

Definition iterate (v : value) (st : store) : option (list string) :=
  match v with
  | VUndefined => None
  | VArray a => Some (map error_to_string (array_elems a st))
  | VString s => Some (chars s)
  end.

(** ** The collaborators outside the repository *)

(** How a [fetch(url)] followed by [response.text()] can settle.  [fetch]
    rejects only when the request itself fails; a response with an HTTP
    error status is an ordinary, fulfilled response. *)
Inductive fetch_outcome :=
| FetchRejected (e : js_error)
| TextRejected (status : nat) (e : js_error)
| Responded (status : nat) (body : string).

(** The option bag passed to [getUserLocales]. *)
Record locale_options := {
  fallbackLocale : string;
  useFallbackLocale : bool
}.

(** The localization engine and the locale-detection library.
    [add_resource locale text] is the array returned by
    [new FluentBundle(locale).addResource(new FluentResource(text))];
    [getUserLocales] is the detection library, called with or without an
    option bag; [ctor_requests] and [translate_requests] count the elements
    a [Localization] constructor and [translateRoots] ask of their bundle
    iterator before they return. *)
Record engine := {
  add_resource : string -> string -> list js_error;
  getUserLocales : option locale_options -> list string;
  ctor_requests : nat;
  translate_requests : nat
}.

(** A [FluentBundle]: the locale it was constructed with and the resource
    text added to it. *)
Record bundle := {
  bundle_locale : string;
  bundle_resource : string
}.

Definition type_error : js_error :=
  {| err_name := "TypeError"; err_message := "not a string or not iterable" |}.

(** A locale tag, in either separator style: non-empty, made of ASCII
    letters, digits, hyphens and underscores. *)
Definition tag_char (c : ascii) : bool :=
  let n := nat_of_ascii c in
  Nat.leb 65 n && Nat.leb n 90 || Nat.leb 97 n && Nat.leb n 122 ||
  Nat.leb 48 n && Nat.leb n 57 || Nat.eqb n 45 || Nat.eqb n 95.

Definition locale_tag (s : string) : bool :=
  negb (String.eqb s "") && forallb tag_char (list_ascii_of_string s).

(** ** fetch_resource *)

(** Lines 12-13: the locale as it appears in the path, and the URL. *)
Definition normalize_locale (locale : string) : string :=
  JsString.replace "-" "_" locale.

Definition fetch_url (locale resourceId : string) : string :=
  JsString.replace "{locale}" (normalize_locale locale) resourceId.

(** Lines 14-16, once the network has settled: the resource text, or the
    rejection of the awaited promise. *)
Definition fetch_resource_settled (o : fetch_outcome) : js_error + string :=
  match o with
  | FetchRejected e => inl e
  | TextRejected _ e => inl e
  | Responded _ text => inr text
  end.

(** ** create_bundle *)

(** The part of [create_bundle] before its [await]: [resourceId] is
    [resourceIds[0]], which is [undefined] for an empty array, and then
    [resourceId.replace] throws before anything is fetched. *)
Definition create_bundle_start (locale : string) (resourceId : option string)
    (st : store) : js_error + store :=
  match resourceId with
  | None => inl type_error
  | Some rid => inr (log_request (fetch_url locale rid) st)
  end.

(** The part of [create_bundle] after its [await]: construct the bundle
    with [locale], do [errors.entries += bundle.addResource(resource)], log
    every entry, return the bundle. *)
Definition create_bundle_settled (E : engine) (locale : string) (errors : loc)
    (o : fetch_outcome) (st : store) : (js_error + bundle) * store :=
  match fetch_resource_settled o with
  | inl e => (inl e, st)
  | inr text =>
      let b := {| bundle_locale := locale; bundle_resource := text |} in
      let v := js_plus_array (get_entries errors st) (add_resource E locale text) st in
      let st1 := set_entries errors v st in
      match iterate (get_entries errors st1) st1 with
      | None => (inl type_error, st1)
      | Some entries =>
          (inr b,
           console_log
             (map (fun entry => "Error creating bundle for locale " +:+ locale +:+ entry)
                  entries) st1)
      end
  end.

(** ** create_bundle_generator *)

(** The closure returned by [create_bundle_generator]. *)
Record bundle_generator := {
  cap_locale : string;
  cap_fallback_locales : list string;
  cap_errors : loc
}.

Definition create_bundle_generator (locale : string) (fallback_locales : list string)
    (errors : loc) : bundle_generator :=
  {| cap_locale := locale; cap_fallback_locales := fallback_locales;
     cap_errors := errors |}.

(** Where an instance of [generate_bundles] stands: not started; inside
    [create_bundle] for [locale], waiting for the network, with [next_index]
    the position in [fallback_locales] the loop reads after the yield;
    suspended at a [yield]; or completed. *)
Inductive gen_state :=
| SuspendedStart
| AwaitingFetch (locale : string) (next_index : nat)
| SuspendedYield (next_index : nat)
| Completed.

(** An instance of the async generator; [g_queue] counts the [next()]
    requests that arrived while the body was running. *)
Record generator := {
  g_fun : bundle_generator;
  g_resourceIds : list string;
  g_state : gen_state;
  g_queue : nat
}.

(** Calling the generator function runs no code of its body. *)
Definition generate_bundles (f : bundle_generator) (resourceIds : list string) : generator :=
  {| g_fun := f; g_resourceIds := resourceIds; g_state := SuspendedStart; g_queue := 0 |}.

Definition set_state (s : gen_state) (g : generator) : generator :=
  {| g_fun := g_fun g; g_resourceIds := g_resourceIds g; g_state := s;
     g_queue := g_queue g |}.

Definition set_queue (n : nat) (g : generator) : generator :=
  {| g_fun := g_fun g; g_resourceIds := g_resourceIds g; g_state := g_state g;
     g_queue := n |}.

(** What a [next()] promise settles to. *)
Inductive iter_result :=
| Yield (b : bundle)
| Done
| Throw (e : js_error).

(** [yield await create_bundle(locale, resourceIds[0], errors)] up to the
    [await] inside [fetch_resource]. *)
Definition enter_create_bundle (locale : string) (next_index : nat)
    (g : generator) (st : store) : generator * store * list iter_result :=
  match create_bundle_start locale (g_resourceIds g !! 0) st with
  | inl e => (set_state Completed g, st, [Throw e])
  | inr st' => (set_state (AwaitingFetch locale next_index) g, st', [])
  end.

(** Resume a generator that is not running with one request. *)
Definition resume (g : generator) (st : store) : generator * store * list iter_result :=
  match g_state g with
  | SuspendedStart => enter_create_bundle (cap_locale (g_fun g)) 0 g st
  | SuspendedYield i =>
      match cap_fallback_locales (g_fun g) !! i with
      | Some entry => enter_create_bundle entry (S i) g st
      | None => (set_state Completed g, st, [Done])
      end
  | Completed => (g, st, [Done])
  | AwaitingFetch _ _ => (g, st, [])
  end.

Definition is_awaiting (s : gen_state) : bool :=
  match s with AwaitingFetch _ _ => true | _ => false end.

(** The consumer calls [next()]. *)
Definition next (g : generator) (st : store) : generator * store * list iter_result :=
  if is_awaiting (g_state g) then (set_queue (S (g_queue g)) g, st, [])
  else resume g st.

(** Serve [n] queued requests, until the body waits for the network again. *)
Fixpoint drain (n : nat) (g : generator) (st : store)
    : generator * store * list iter_result :=
  match n with
  | 0 => (set_queue 0 g, st, [])
  | S n' =>
      let '(g1, st1, rs1) := resume g st in
      if is_awaiting (g_state g1) then (set_queue n' g1, st1, rs1)
      else
        let '(g2, st2, rs2) := drain n' g1 st1 in
        (g2, st2, rs1 ++ rs2)
  end.

(** The network settles the pending fetch. *)
Definition settle (E : engine) (o : fetch_outcome) (g : generator) (st : store)
    : generator * store * list iter_result :=
  match g_state g with
  | AwaitingFetch locale next_index =>
      let '(r, st1) := create_bundle_settled E locale (cap_errors (g_fun g)) o st in
      let '(g1, rs1) :=
        match r with
        | inl e => (set_state Completed g, [Throw e])
        | inr b => (set_state (SuspendedYield next_index) g, [Yield b])
        end in
      let '(g2, st2, rs2) := drain (g_queue g1) g1 st1 in
      (g2, st2, rs1 ++ rs2)
  | _ => (g, st, [])
  end.

Inductive event :=
| Next
| Settle (o : fetch_outcome).

Definition step (E : engine) (ev : event) (g : generator) (st : store)
    : generator * store * list iter_result :=
  match ev with
  | Next => next g st
  | Settle o => settle E o g st
  end.

(** A run: the events happen in order; the results are the settled
    [next()] promises in order. *)
Fixpoint run (E : engine) (evs : list event) (g : generator) (st : store)
    : generator * store * list iter_result :=
  match evs with
  | [] => (g, st, [])
  | ev :: evs' =>
      let '(g1, st1, rs1) := step E ev g st in
      let '(g2, st2, rs2) := run E evs' g1 st1 in
      (g2, st2, rs1 ++ rs2)
  end.

Definition is_next (ev : event) : bool :=
  match ev with Next => true | Settle _ => false end.

(** How many elements the consumer asked for during a run. *)
Definition count_next (evs : list event) : nat :=
  length (List.filter is_next evs).

(** ** A consumer that awaits every element before asking for the next *)

(** The network: what the [n]-th request issued, for [url], settles to. *)
Definition network := nat -> string -> fetch_outcome.

Definition body_of (o : fetch_outcome) : string :=
  match o with
  | Responded _ text => text
  | _ => ""
  end.

Definition responds (o : fetch_outcome) : bool :=
  match o with
  | Responded _ _ => true
  | _ => false
  end.

(** [await gen.next()]: ask, and let the network settle the fetch this
    request started, if it started one. *)
Definition await_next (E : engine) (net : network) (g : generator) (st : store)
    : generator * store * list iter_result :=
  let '(g1, st1, rs1) := next g st in
  if is_awaiting (g_state g1) then
    let o := net (length (requests st)) (List.last (requests st1) "") in
    let '(g2, st2, rs2) := settle E o g1 st1 in
    (g2, st2, rs1 ++ rs2)
  else (g1, st1, rs1).

(** [n] awaited requests in a row. *)
Fixpoint pull (E : engine) (net : network) (n : nat) (g : generator) (st : store)
    : generator * store * list iter_result :=
  match n with
  | 0 => (g, st, [])
  | S n' =>
      let '(g1, st1, rs1) := await_next E net g st in
      let '(g2, st2, rs2) := pull E net n' g1 st1 in
      (g2, st2, rs1 ++ rs2)
  end.

(** The bundles a complete, failure-free iteration is expected to yield
    when its first request is request number [base]. *)
Definition expected_bundles (net : network) (base : nat) (resourceId : string)
    (locales : list string) : list bundle :=
  imap (fun i l => {| bundle_locale := l;
                      bundle_resource := body_of (net (base + i) (fetch_url l resourceId)) |})
       locales.

(** The URLs an instance fetches, in order, if it is driven to the end. *)
Definition planned_urls (g : generator) : list string :=
  match g_resourceIds g !! 0 with
  | Some rid =>
      map (fun l => fetch_url l rid)
          (cap_locale (g_fun g) :: cap_fallback_locales (g_fun g))
  | None => []
  end.

(** ** get_user_locales *)

(** The argument is [None] when the caller passes nothing; the test
    [if (fallback)] is false for a missing argument and for the empty
    string. *)
Definition get_user_locales (E : engine) (fallback : option string) : list string :=
  match fallback with
  | Some s =>
      if negb (String.eqb s "") then
        getUserLocales E (Some {| fallbackLocale := s; useFallbackLocale := true |})
      else getUserLocales E None
  | None => getUserLocales E None
  end.

(** ** init_localization *)

(** A [Localization] or [DOMLocalization]: the resource ids and the
    generator function it was given, and its current bundle iterator. *)
Record handle := {
  h_resourceIds : list string;
  h_generateBundles : bundle_generator;
  h_bundles : generator
}.

(** Synchronous code of the engine can ask its iterator for elements but
    cannot see any of them settle before it returns. *)
Definition ask (E : engine) (n : nat) (g : generator) (st : store) : generator * store :=
  let '(g', st', _) := run E (repeat Next n) g st in (g', st').

Definition new_Localization (E : engine) (resourceIds : list string)
    (f : bundle_generator) (st : store) : handle * store :=
  let '(g, st') := ask E (ctor_requests E) (generate_bundles f resourceIds) st in
  ({| h_resourceIds := resourceIds; h_generateBundles := f; h_bundles := g |}, st').

Definition translateRoots (E : engine) (h : handle) (st : store) : handle * store :=
  let '(g, st') := ask E (translate_requests E) (h_bundles h) st in
  ({| h_resourceIds := h_resourceIds h; h_generateBundles := h_generateBundles h;
      h_bundles := g |}, st').

(** The object [init_localization] returns. *)
Record localization := {
  dom : handle;
  dom_errors : value;
  main : handle;
  main_errors : value
}.

(** [connectRoot] touches the document only and is left out. *)
Definition init_localization (E : engine) (resource_path_template locale : string)
    (fallback_locales : list string) (st : store) : localization * store :=
  let '(a_dom, st1) := alloc_array [] st in
  let '(o_dom, st2) := alloc_object (VArray a_dom) st1 in
  let '(a_main, st3) := alloc_array [] st2 in
  let '(o_main, st4) := alloc_object (VArray a_main) st3 in
  let dom_bundle_gen := create_bundle_generator locale fallback_locales o_dom in
  let loc_bundle_gen := create_bundle_generator locale fallback_locales o_main in
  let '(d, st5) := new_Localization E [resource_path_template] dom_bundle_gen st4 in
  let '(d', st6) := translateRoots E d st5 in
  let '(m, st7) := new_Localization E [resource_path_template] loc_bundle_gen st6 in
  ({| dom := d'; dom_errors := get_entries o_dom st7;
      main := m; main_errors := get_entries o_main st7 |}, st7).

(** ** Notions used to state the properties *)

(** The locale whose bundle a suspended instance produces next, if any. *)
Definition next_locale (g : generator) : option string :=
  match g_state g with
  | SuspendedStart => Some (cap_locale (g_fun g))
  | SuspendedYield i => cap_fallback_locales (g_fun g) !! i
  | _ => None
  end.

(** The position in [fallback_locales] the loop reads after the element a
    suspended instance produces next. *)
Definition after_index (g : generator) : nat :=
  match g_state g with
  | SuspendedYield i => S i
  | _ => 0
  end.

(** From [st] to [st'] no array changed, and no container other than [o]. *)
Definition touches_only (o : loc) (st st' : store) : Prop :=
  arrays st' = arrays st /\
  forall o', o' <> o -> objects st' !! o' = objects st !! o'.

(** A step of an instance keeps its closure and its resource ids, and
    touches at most the container its closure captured. *)
Definition gen_frame (g : generator) (st : store) (g' : generator) (st' : store) : Prop :=
  g_fun g' = g_fun g /\ g_resourceIds g' = g_resourceIds g /\
  touches_only (cap_errors (g_fun g)) st st'.

(** An instance of [g0] has issued the first [k] of its planned fetches,
    on top of the requests [base] that were there before it started. *)
Definition at_position (g0 : generator) (base : list string) (k : nat)
    (g : generator) (st : store) : Prop :=
  g_fun g = g_fun g0 /\ g_resourceIds g = g_resourceIds g0 /\
  requests st = base ++ take k (planned_urls g0) /\
  match g_state g with
  | SuspendedStart => k = 0
  | AwaitingFetch _ i => k = S i
  | SuspendedYield i => k = S i
  | Completed => True
  end.

(** ** Notions used to state further properties *)

(** The number of hyphens in a string. *)
Fixpoint count_hyphens (s : string) : nat :=
  match s with
  | EmptyString => 0
  | String c s' => (if Ascii.eqb c "-" then 1 else 0) + count_hyphens s'
  end.

(** The locales of a generator function: the primary, then the fallbacks. *)
Definition chain (f : bundle_generator) : list string :=
  cap_locale f :: cap_fallback_locales f.

Definition is_settle (ev : event) : bool :=
  match ev with Next => false | Settle _ => true end.

(** How many times the network settled something during a run. *)
Definition count_settle (evs : list event) : nat :=
  length (List.filter is_settle evs).

Definition is_yield (r : iter_result) : bool :=
  match r with Yield _ => true | _ => false end.

Definition is_done (r : iter_result) : bool :=
  match r with Done => true | _ => false end.

(** The bundles among the results, in order. *)
Fixpoint yielded (rs : list iter_result) : list bundle :=
  match rs with
  | [] => []
  | Yield b :: rs' => b :: yielded rs'
  | _ :: rs' => yielded rs'
  end.

(** A sequence of results that ends at most once: bundles, then possibly
    one error or one end of sequence, and after that only ends of
    sequence. *)
Fixpoint ends_once (rs : list iter_result) : bool :=
  match rs with
  | [] => true
  | Yield _ :: rs' => ends_once rs'
  | _ :: rs' => forallb is_done rs'
  end.

(** What an instance of [g0] has done so far, after [s] settlements: it
    issued the first [k] planned fetches and delivered the bundles of the
    first [j] locales of its chain, with at most one fetch not yet
    settled, and its results end at most once. *)
Definition progress (g0 : generator) (base : list string) (s : nat)
    (g : generator) (st : store) (rs : list iter_result) : Prop :=
  g_fun g = g_fun g0 /\ g_resourceIds g = g_resourceIds g0 /\
  exists k j,
    requests st = base ++ take k (planned_urls g0) /\
    map bundle_locale (yielded rs) = take j (chain (g_fun g0)) /\
    ends_once rs = true /\
    match g_state g with
    | SuspendedStart => k = 0 /\ j = 0 /\ forallb is_yield rs = true
    | AwaitingFetch l i =>
        k = S i /\ j = i /\ k <= S s /\ chain (g_fun g0) !! i = Some l /\
        forallb is_yield rs = true
    | SuspendedYield i => k = S i /\ j = S i /\ k <= s /\ forallb is_yield rs = true
    | Completed => k <= s
    end.

(** The number of [next()] requests an instance has taken up or holds in
    its queue, given the results [rs] it delivered. *)
Definition accounted (g : generator) (rs : list iter_result) : nat :=
  length rs + (if is_awaiting (g_state g) then 1 else 0) + g_queue g.

(** Two instances that differ at most in the resource ids after the first. *)
Definition same_but_rest (g g' : generator) : Prop :=
  g_fun g = g_fun g' /\ g_state g = g_state g' /\ g_queue g = g_queue g' /\
  g_resourceIds g !! 0 = g_resourceIds g' !! 0.

(** Two outcomes of a transition that agree up to those resource ids. *)
Definition same_outcome (r r' : generator * store * list iter_result) : Prop :=
  same_but_rest r.1.1 r'.1.1 /\ r.1.2 = r'.1.2 /\ r.2 = r'.2.

(** The text the [+=] of [create_bundle] adds for one bundle, and for a
    list of bundles in order. *)
Definition errors_text (E : engine) (b : bundle) : string :=
  join "," (map error_to_string (add_resource E (bundle_locale b) (bundle_resource b))).

Fixpoint entries_text (E : engine) (bs : list bundle) : string :=
  match bs with
  | [] => ""
  | b :: bs' => errors_text E b +:+ entries_text E bs'
  end.

(** ** A sample engine and network, for the concrete runs below *)

Definition junk_error : js_error :=
  {| err_name := "Error"; err_message := "junk" |}.

(** Reports one error for every resource whose text starts with [!]. *)
Definition sample_engine : engine :=
  {| add_resource := fun _ text =>
       match text with
       | String "!" _ => [junk_error]
       | _ => []
       end;
     getUserLocales := fun opts =>
       match opts with
       | Some o => if useFallbackLocale o then [fallbackLocale o] else []
       | None => []
       end;
     ctor_requests := 1;
     translate_requests := 1 |}.

Definition network_down : js_error :=
  {| err_name := "TypeError"; err_message := "Failed to fetch" |}.

(** Three networks: every request is answered with status 200, every
    request is answered with status 404, every request fails. *)
Definition net_ok : network := fun _ _ => Responded 200 "hello = Hola".
Definition net_404 : network := fun _ _ => Responded 404 "Not Found".
Definition net_down : network := fun _ _ => FetchRejected network_down.

(** [generate_bundles(["loc/{locale}/main.ftl"])] for the primary locale
    es-MX with fallbacks en-US and en-GB, and a store holding its
    container [{entries: []}]. *)
Definition sample_generator : generator :=
  generate_bundles (create_bundle_generator "es-MX" ["en-US"; "en-GB"] 0)
                   ["loc/{locale}/main.ftl"].

Definition sample_store : store :=
  (alloc_object (VArray 0) (alloc_array [] empty_store).2).2.

(** * Properties *)

(** ** Strings *)

Section StringFacts.

Import JsString.

Lemma append_nil_r (s : string) : s +:+ "" = s.
Proof. induction s as [|c s IH]; simpl; [reflexivity | now rewrite IH]. Qed.

Lemma append_assoc (s t u : string) : (s +:+ t) +:+ u = s +:+ t +:+ u.
Proof. induction s as [|c s IH]; simpl; [reflexivity | now rewrite IH]. Qed.

Lemma length_append (s t : string) :
  String.length (s +:+ t) = String.length s + String.length t.
Proof. induction s as [|c s IH]; simpl; [reflexivity | now rewrite IH]. Qed.

Lemma has_dollar_append (s t : string) :
  has_dollar (s +:+ t) = has_dollar s || has_dollar t.
Proof.
  induction s as [|c s IH]; simpl; [reflexivity|].
  rewrite IH. now rewrite orb_assoc.
Qed.

Lemma strip_prefix_Some (p s r : string) :
  strip_prefix p s = Some r <-> s = p +:+ r.
Proof.
  revert s. induction p as [|c p IH]; intros s; simpl.
  - split; congruence.
  - destruct s as [|d s]; [split; discriminate|].
    destruct (Ascii.eqb_spec c d) as [->|Hcd].
    + rewrite IH. split; congruence.
    + split; [discriminate | congruence].
Qed.

Lemma strip_prefix_append (p r : string) : strip_prefix p (p +:+ r) = Some r.
Proof. now apply strip_prefix_Some. Qed.

Lemma split_first_unfold (pat s : string) :
  split_first pat s =
  match strip_prefix pat s with
  | Some rest => Some ("", rest)
  | None =>
      match s with
      | "" => None
      | String c s' =>
          match split_first pat s' with
          | Some (before, after) => Some (String c before, after)
          | None => None
          end
      end
  end.
Proof. destruct s; reflexivity. Qed.

(** The executable search finds an occurrence, and the earliest one. *)
Lemma split_first_sound (pat s b a : string) :
  split_first pat s = Some (b, a) -> first_at pat b a s.
Proof.
  revert b a. induction s as [|c s IH]; intros b a; rewrite split_first_unfold.
  - destruct (strip_prefix pat "") as [rest|] eqn:Hp; [|discriminate].
    intros [= <- <-]. apply strip_prefix_Some in Hp.
    split; [exact Hp|]. intros; simpl; lia.
  - destruct (strip_prefix pat (String c s)) as [rest|] eqn:Hp.
    + intros [= <- <-]. apply strip_prefix_Some in Hp.
      split; [exact Hp|]. intros; simpl; lia.
    + destruct (split_first pat s) as [[b0 a0]|] eqn:Hs; [|discriminate].
      intros [= <- <-]. destruct (IH _ _ eq_refl) as [Heq Hmin].
      split; [simpl; now rewrite <- Heq|].
      intros b' a' Hocc. destruct b' as [|c' b'].
      * simpl in Hocc. apply strip_prefix_Some in Hocc. congruence.
      * simpl in Hocc. injection Hocc as _ Hocc.
        specialize (Hmin _ _ Hocc). simpl. lia.
Qed.

Lemma split_first_complete (pat b a s : string) :
  first_at pat b a s -> split_first pat s = Some (b, a).
Proof.
  intros [-> Hmin]. induction b as [|c b IH]; rewrite split_first_unfold.
  - simpl. now rewrite strip_prefix_append.
  - destruct (strip_prefix pat (String c b +:+ pat +:+ a)) as [rest|] eqn:Hp.
    + apply strip_prefix_Some in Hp.
      specialize (Hmin "" rest Hp). simpl in Hmin. lia.
    + simpl. rewrite IH; [reflexivity|].
      intros b' a' Hocc.
      specialize (Hmin (String c b') a'). simpl in Hmin.
      rewrite Hocc in Hmin. specialize (Hmin eq_refl). lia.
Qed.

Lemma split_first_None (pat s b a : string) :
  split_first pat s = None -> s <> b +:+ pat +:+ a.
Proof.
  revert b. induction s as [|c s IH]; intros b; rewrite split_first_unfold.
  - destruct (strip_prefix pat "") eqn:Hp; [discriminate|]. intros _ Heq.
    destruct b; simpl in Heq; [|discriminate].
    apply (proj2 (strip_prefix_Some _ _ _)) in Heq. congruence.
  - destruct (strip_prefix pat (String c s)) eqn:Hp; [discriminate|].
    destruct (split_first pat s) as [[? ?]|] eqn:Hs; [discriminate|].
    intros _ Heq. destruct b as [|c' b]; simpl in Heq.
    + apply (proj2 (strip_prefix_Some _ _ _)) in Heq. congruence.
    + injection Heq as _ Heq. now apply (IH b).
Qed.

Lemma get_substitution_literal (m b a repl : string) :
  has_dollar repl = false -> get_substitution m b a repl = repl.
Proof.
  induction repl as [|c r IH]; simpl; [reflexivity|].
  destruct (Ascii.eqb c "$"); simpl; [discriminate|].
  intros H. now rewrite IH.
Qed.

(** [replace] with a replacement free of patterns, at the first occurrence. *)
Lemma replace_first (pat repl b a s : string) :
  has_dollar repl = false ->
  first_at pat b a s ->
  replace pat repl s = b +:+ repl +:+ a.
Proof.
  intros Hd Hf. unfold replace.
  rewrite (split_first_complete _ _ _ _ Hf).
  now rewrite get_substitution_literal.
Qed.

Lemma replace_absent (pat repl s : string) :
  (forall b a, s <> b +:+ pat +:+ a) -> replace pat repl s = s.
Proof.
  intros Hn. unfold replace.
  destruct (split_first pat s) as [[b a]|] eqn:Hs; [|reflexivity].
  apply split_first_sound in Hs. destruct Hs as [Heq _]. now apply Hn in Heq.
Qed.

Lemma tag_char_not_dollar (c : ascii) : tag_char c = true -> Ascii.eqb c "$" = false.
Proof.
  intros Ht. destruct (Ascii.eqb_spec c "$") as [->|]; [|reflexivity].
  vm_compute in Ht. discriminate.
Qed.

Lemma locale_tag_no_dollar (s : string) : locale_tag s = true -> has_dollar s = false.
Proof.
  unfold locale_tag. intros [_ Hall]%andb_prop. clear -Hall.
  induction s as [|c s IH]; simpl in *; [reflexivity|].
  apply andb_prop in Hall as [Hc Hs].
  now rewrite (tag_char_not_dollar _ Hc), IH.
Qed.

(** The normalized locale: the first hyphen becomes an underscore. *)
Lemma normalize_locale_first_hyphen (locale a b : string) :
  first_at "-" a b locale -> normalize_locale locale = a +:+ "_" +:+ b.
Proof. intros Hf. unfold normalize_locale. now apply replace_first. Qed.

Lemma normalize_locale_no_dollar (locale : string) :
  has_dollar locale = false -> has_dollar (normalize_locale locale) = false.
Proof.
  intros Hd. unfold normalize_locale, replace.
  destruct (split_first "-" locale) as [[b a]|] eqn:Hs; [|exact Hd].
  apply split_first_sound in Hs. destruct Hs as [-> _].
  rewrite !has_dollar_append in *. simpl in *.
  destruct (has_dollar b), (has_dollar a); simpl in *; congruence.
Qed.

(** The URL: the normalized locale in place of the first placeholder. *)
Lemma fetch_url_first_at (locale template p q : string) :
  has_dollar locale = false ->
  first_at "{locale}" p q template ->
  fetch_url locale template = p +:+ normalize_locale locale +:+ q.
Proof.
  intros Hd Hf. unfold fetch_url.
  apply replace_first; [now apply normalize_locale_no_dollar | exact Hf].
Qed.

(** C2: for a locale tag whose first hyphen sits between [a] and [b], and a
    template whose first placeholder sits between [p] and [q], the URL
    fetched is [p], then [a], an underscore and [b], then [q]: one hyphen is
    replaced, everything else is kept as it is. *)
Theorem fetch_url_hyphen_to_underscore (locale template a b p q : string) :
  locale_tag locale = true ->
  first_at "-" a b locale ->
  first_at "{locale}" p q template ->
  fetch_url locale template = p +:+ (a +:+ "_" +:+ b) +:+ q.
Proof.
  intros Ht Hl Hp.
  rewrite (fetch_url_first_at locale template p q); [|now apply locale_tag_no_dollar|exact Hp].
  now rewrite (normalize_locale_first_hyphen locale a b).
Qed.

Lemma fetch_url_en_US :
  locale_tag "en-US" = true /\
  first_at "-" "en" "US" "en-US" /\
  first_at "{locale}" "loc/" "/main.ftl" "loc/{locale}/main.ftl" /\
  fetch_url "en-US" "loc/{locale}/main.ftl" = "loc/en_US/main.ftl".
Proof.
  assert (H1 : locale_tag "en-US" = true) by reflexivity.
  assert (H2 : first_at "-" "en" "US" "en-US")
    by (apply split_first_sound; reflexivity).
  assert (H3 : first_at "{locale}" "loc/" "/main.ftl" "loc/{locale}/main.ftl")
    by (apply split_first_sound; reflexivity).
  split; [exact H1 | split; [exact H2 | split; [exact H3 |]]].
  exact (fetch_url_hyphen_to_underscore _ _ _ _ _ _ H1 H2 H3).
Defined.

(** Only one hyphen is replaced: later ones stay in the path. *)
Example fetch_url_second_hyphen_kept :
  fetch_url "zh-Hant-TW" "loc/{locale}/main.ftl" = "loc/zh_Hant-TW/main.ftl".
Proof. reflexivity. Qed.

(** A locale that is not a tag can carry a replacement pattern, which
    [replace] expands instead of copying. *)
Example fetch_url_pattern_in_locale :
  fetch_url "en-$&" "loc/{locale}/main.ftl" = "loc/en_{locale}/main.ftl".
Proof. reflexivity. Qed.

(** C10: only the first placeholder of a template is substituted: for a
    locale tag and a template whose first placeholder sits between [p] and
    [q], the URL is [p], the normalized locale, and [q] unchanged, whatever
    [q] contains, further placeholders included. *)
Theorem fetch_url_first_placeholder_only (locale template p q : string) :
  locale_tag locale = true ->
  first_at "{locale}" p q template ->
  fetch_url locale template = p +:+ normalize_locale locale +:+ q.
Proof.
  intros Ht Hp. apply fetch_url_first_at; [now apply locale_tag_no_dollar | exact Hp].
Qed.

Lemma fetch_url_two_placeholders :
  locale_tag "de-DE" = true /\
  first_at "{locale}" "l10n/" "/{locale}.ftl" "l10n/{locale}/{locale}.ftl" /\
  fetch_url "de-DE" "l10n/{locale}/{locale}.ftl" = "l10n/de_DE/{locale}.ftl".
Proof.
  assert (H1 : locale_tag "de-DE" = true) by reflexivity.
  assert (H2 : first_at "{locale}" "l10n/" "/{locale}.ftl" "l10n/{locale}/{locale}.ftl")
    by (apply split_first_sound; reflexivity).
  split; [exact H1 | split; [exact H2 |]].
  exact (fetch_url_first_placeholder_only _ _ _ _ H1 H2).
Defined.

(** X3: a template without the placeholder is fetched as it is, for every
    locale: all locales of the chain then share one URL. *)
Lemma fetch_url_no_placeholder (locale template : string) :
  (forall b a, template <> b +:+ "{locale}" +:+ a) ->
  fetch_url locale template = template.
Proof. intros Hn. unfold fetch_url. now apply replace_absent. Qed.

End StringFacts.

(** ** The store: what each operation leaves alone *)

Section Frame.

Variable E : engine.

Lemma get_set_entries (o : loc) (v : value) (st : store) :
  get_entries o (set_entries o v st) = v.
Proof. unfold get_entries, set_entries; simpl. now rewrite lookup_insert_eq. Qed.

Lemma touches_only_refl (o : loc) (st : store) : touches_only o st st.
Proof. split; [reflexivity | intros; reflexivity]. Qed.

Lemma touches_only_trans (o : loc) (st1 st2 st3 : store) :
  touches_only o st1 st2 -> touches_only o st2 st3 -> touches_only o st1 st3.
Proof.
  intros [Ha Ho] [Ha' Ho']. split; [congruence|].
  intros o' Hne. rewrite Ho', Ho; auto.
Qed.

Lemma gen_frame_refl (g : generator) (st : store) : gen_frame g st g st.
Proof. repeat split; auto. Qed.

Lemma gen_frame_trans (g1 g2 g3 : generator) (st1 st2 st3 : store) :
  gen_frame g1 st1 g2 st2 -> gen_frame g2 st2 g3 st3 -> gen_frame g1 st1 g3 st3.
Proof.
  intros (Hf & Hr & Ht) (Hf' & Hr' & Ht').
  split; [congruence|]. split; [congruence|].
  rewrite Hf in Ht'. eapply touches_only_trans; eassumption.
Qed.

(** After [+=] the [entries] property is a string, whatever it was. *)
Lemma create_bundle_settled_responded (locale : string) (o : loc)
    (status : nat) (text : string) (st : store) :
  let v := js_plus_array (get_entries o st) (add_resource E locale text) st in
  let st1 := set_entries o v st in
  create_bundle_settled E locale o (Responded status text) st =
  (inr {| bundle_locale := locale; bundle_resource := text |},
   console_log
     (map (fun entry => "Error creating bundle for locale " +:+ locale +:+ entry)
          (chars (to_string (get_entries o st) st +:+
                  join "," (map error_to_string (add_resource E locale text)))))
     st1).
Proof.
  unfold create_bundle_settled; simpl. now rewrite get_set_entries.
Qed.

Lemma create_bundle_settled_rejected (locale : string) (o : loc)
    (out : fetch_outcome) (e : js_error) (st : store) :
  fetch_resource_settled out = inl e ->
  create_bundle_settled E locale o out st = (inl e, st).
Proof. intros H. unfold create_bundle_settled. now rewrite H. Qed.

Lemma create_bundle_settled_frame (locale : string) (o : loc)
    (out : fetch_outcome) (st : store) :
  touches_only o st (create_bundle_settled E locale o out st).2 /\
  requests (create_bundle_settled E locale o out st).2 = requests st.
Proof.
  destruct out as [e|status e|status text].
  - rewrite (create_bundle_settled_rejected _ _ _ e) by reflexivity.
    split; [apply touches_only_refl | reflexivity].
  - rewrite (create_bundle_settled_rejected _ _ _ e) by reflexivity.
    split; [apply touches_only_refl | reflexivity].
  - rewrite create_bundle_settled_responded. simpl.
    split; [|reflexivity]. split; [reflexivity|].
    intros o' Hne. simpl. now rewrite lookup_insert_ne.
Qed.

Lemma enter_create_bundle_frame (locale : string) (k : nat) (g : generator) (st : store) :
  let r := enter_create_bundle locale k g st in
  g_fun r.1.1 = g_fun g /\ g_resourceIds r.1.1 = g_resourceIds g /\
  g_queue r.1.1 = g_queue g /\
  arrays r.1.2 = arrays st /\ objects r.1.2 = objects st.
Proof.
  unfold enter_create_bundle, create_bundle_start.
  destruct (g_resourceIds g !! 0); simpl; auto.
Qed.

Lemma resume_frame (g : generator) (st : store) :
  let r := resume g st in
  g_fun r.1.1 = g_fun g /\ g_resourceIds r.1.1 = g_resourceIds g /\
  g_queue r.1.1 = g_queue g /\
  arrays r.1.2 = arrays st /\ objects r.1.2 = objects st.
Proof.
  unfold resume. destruct (g_state g) as [|l k|i|]; simpl; auto.
  - apply enter_create_bundle_frame.
  - destruct (cap_fallback_locales (g_fun g) !! i); simpl; auto.
    apply enter_create_bundle_frame.
Qed.

Lemma drain_frame (n : nat) (g : generator) (st : store) :
  let r := drain n g st in
  g_fun r.1.1 = g_fun g /\ g_resourceIds r.1.1 = g_resourceIds g /\
  arrays r.1.2 = arrays st /\ objects r.1.2 = objects st.
Proof.
  revert g st. induction n as [|n IH]; intros g st; simpl; auto.
  pose proof (resume_frame g st) as Hr.
  destruct (resume g st) as [[g1 st1] rs1]. simpl in Hr.
  destruct Hr as (Hf & Hi & _ & Ha & Ho).
  destruct (is_awaiting (g_state g1)); simpl; auto.
  specialize (IH g1 st1).
  destruct (drain n g1 st1) as [[g2 st2] rs2]. simpl in *.
  destruct IH as (Hf' & Hi' & Ha' & Ho'). repeat split; congruence.
Qed.

Lemma next_frame (g : generator) (st : store) :
  gen_frame g st (next g st).1.1 (next g st).1.2.
Proof.
  unfold next. destruct (is_awaiting (g_state g)); simpl.
  - repeat split; auto.
  - destruct (resume_frame g st) as (Hf & Hi & _ & Ha & Ho).
    repeat split; auto. intros; now rewrite Ho.
Qed.

Lemma settle_frame (out : fetch_outcome) (g : generator) (st : store) :
  gen_frame g st (settle E out g st).1.1 (settle E out g st).1.2.
Proof.
  unfold settle. destruct (g_state g) as [|l k|i|]; try apply gen_frame_refl.
  pose proof (create_bundle_settled_frame l (cap_errors (g_fun g)) out st) as [Ht _].
  destruct (create_bundle_settled E l (cap_errors (g_fun g)) out st) as [r st1].
  simpl in Ht.
  set (p := match r with
            | inl e => (set_state Completed g, [Throw e])
            | inr b => (set_state (SuspendedYield k) g, [Yield b])
            end).
  assert (Hp : g_fun p.1 = g_fun g /\ g_resourceIds p.1 = g_resourceIds g)
    by (subst p; destruct r; simpl; auto).
  destruct p as [g1 rs1]. simpl in Hp. destruct Hp as [Hf Hi].
  pose proof (drain_frame (g_queue g1) g1 st1) as Hd.
  destruct (drain (g_queue g1) g1 st1) as [[g2 st2] rs2]. simpl in *.
  destruct Hd as (Hf' & Hi' & Ha' & Ho').
  split; [congruence|]. split; [congruence|].
  destruct Ht as [Ha Ho]. split; [congruence|].
  intros o' Hne. rewrite Ho'. now apply Ho.
Qed.

Lemma step_frame (ev : event) (g : generator) (st : store) :
  gen_frame g st (step E ev g st).1.1 (step E ev g st).1.2.
Proof. destruct ev; simpl; [apply next_frame | apply settle_frame]. Qed.

Lemma run_frame (evs : list event) (g : generator) (st : store) :
  gen_frame g st (run E evs g st).1.1 (run E evs g st).1.2.
Proof.
  revert g st. induction evs as [|ev evs IH]; intros g st; simpl.
  - apply gen_frame_refl.
  - pose proof (step_frame ev g st) as Hs.
    destruct (step E ev g st) as [[g1 st1] rs1]. simpl in Hs.
    specialize (IH g1 st1).
    destruct (run E evs g1 st1) as [[g2 st2] rs2]. simpl in *.
    eapply gen_frame_trans; eassumption.
Qed.

End Frame.

(** ** Laziness: fetches follow requests *)

Section Lazy.

Variable E : engine.
Variable g0 : generator.
Variable base : list string.

Lemma planned_urls_head (rid : string) :
  g_resourceIds g0 !! 0 = Some rid ->
  planned_urls g0 !! 0 = Some (fetch_url (cap_locale (g_fun g0)) rid).
Proof. intros H. unfold planned_urls. now rewrite H. Qed.

Lemma planned_urls_fallback (rid entry : string) (i : nat) :
  g_resourceIds g0 !! 0 = Some rid ->
  cap_fallback_locales (g_fun g0) !! i = Some entry ->
  planned_urls g0 !! S i = Some (fetch_url entry rid).
Proof.
  intros H Hi. unfold planned_urls. rewrite H. simpl.
  rewrite list_lookup_fmap, Hi. reflexivity.
Qed.

Lemma enter_position (k : nat) (l : string) (g : generator) (st : store) :
  g_fun g = g_fun g0 -> g_resourceIds g = g_resourceIds g0 ->
  requests st = base ++ take k (planned_urls g0) ->
  (forall rid, g_resourceIds g0 !! 0 = Some rid ->
               planned_urls g0 !! k = Some (fetch_url l rid)) ->
  exists k', at_position g0 base k' (enter_create_bundle l k g st).1.1
                                   (enter_create_bundle l k g st).1.2 /\
             k' <= S k.
Proof.
  intros Hf Hi Hreq Hplan. unfold enter_create_bundle, create_bundle_start.
  rewrite Hi. destruct (g_resourceIds g0 !! 0) as [rid|] eqn:Hrid; simpl.
  - exists (S k). split; [|lia]. repeat split; simpl; auto.
    rewrite Hreq, (take_S_r _ _ _ (Hplan rid eq_refl)).
    now rewrite app_assoc.
  - exists k. split; [|lia]. repeat split; simpl; auto.
Qed.

Lemma resume_position (k : nat) (g : generator) (st : store) :
  at_position g0 base k g st ->
  is_awaiting (g_state g) = false ->
  exists k', at_position g0 base k' (resume g st).1.1 (resume g st).1.2 /\ k' <= S k.
Proof.
  intros (Hf & Hi & Hreq & Hst) Hna. unfold resume.
  destruct (g_state g) as [|l i|i|] eqn:Hs; try discriminate.
  - subst k. apply enter_position; auto.
    intros rid Hrid. rewrite Hf. now apply planned_urls_head.
  - subst k. destruct (cap_fallback_locales (g_fun g) !! i) as [entry|] eqn:Hfb.
    + apply enter_position; auto.
      intros rid Hrid. rewrite Hf in Hfb. now apply planned_urls_fallback.
    + exists (S i). split; [|lia]. repeat split; simpl; auto.
  - exists k. split; [|lia]. repeat split; simpl; auto. now rewrite Hs.
Qed.

Lemma drain_position (n k : nat) (g : generator) (st : store) :
  at_position g0 base k g st ->
  is_awaiting (g_state g) = false ->
  exists k', at_position g0 base k' (drain n g st).1.1 (drain n g st).1.2 /\
             k' + g_queue (drain n g st).1.1 <= k + n.
Proof.
  revert k g st. induction n as [|n IH]; intros k g st Hp Hna; simpl.
  - exists k. split; [exact Hp | simpl; lia].
  - destruct (resume_position k g st Hp Hna) as (k1 & Hp1 & Hk1).
    destruct (resume g st) as [[g1 st1] rs1]. simpl in Hp1.
    destruct (is_awaiting (g_state g1)) eqn:Haw; simpl.
    + exists k1. split; [exact Hp1 | simpl; lia].
    + destruct (IH k1 g1 st1 Hp1 Haw) as (k2 & Hp2 & Hk2).
      destruct (drain n g1 st1) as [[g2 st2] rs2]. simpl in *.
      exists k2. split; [exact Hp2 | lia].
Qed.

Lemma step_position (ev : event) (k : nat) (g : generator) (st : store) :
  at_position g0 base k g st ->
  exists k', at_position g0 base k' (step E ev g st).1.1 (step E ev g st).1.2 /\
             k' + g_queue (step E ev g st).1.1
             <= k + g_queue g + (if is_next ev then 1 else 0).
Proof.
  intros Hp. destruct ev as [|out]; simpl.
  - unfold next. destruct (is_awaiting (g_state g)) eqn:Haw; simpl.
    + exists k. split; [exact Hp | lia].
    + destruct (resume_position k g st Hp Haw) as (k1 & Hp1 & Hk1).
      exists k1. split; [exact Hp1|].
      destruct (resume_frame g st) as (_ & _ & Hq & _). lia.
  - unfold settle. destruct (g_state g) as [|l i|i|] eqn:Hs;
      try (exists k; split; [exact Hp | simpl; lia]).
    destruct Hp as (Hf & Hi & Hreq & Hst). rewrite Hs in Hst.
    pose proof (create_bundle_settled_frame E l (cap_errors (g_fun g)) out st) as [_ Hr].
    destruct (create_bundle_settled E l (cap_errors (g_fun g)) out st) as [r st1].
    simpl in Hr.
    set (p := match r with
              | inl e => (set_state Completed g, [Throw e])
              | inr b => (set_state (SuspendedYield i) g, [Yield b])
              end).
    assert (Hp : at_position g0 base k p.1 st1 /\ is_awaiting (g_state p.1) = false
                 /\ g_queue p.1 = g_queue g).
    { subst p. destruct r; simpl; repeat split; simpl; auto; congruence. }
    destruct p as [g1 rs1]. simpl in Hp. destruct Hp as (Hp & Hna & Hq).
    destruct (drain_position (g_queue g1) k g1 st1 Hp Hna) as (k2 & Hp2 & Hk2).
    destruct (drain (g_queue g1) g1 st1) as [[g2 st2] rs2]. simpl in *.
    exists k2. split; [exact Hp2 | lia].
Qed.

Lemma run_position (evs : list event) (k : nat) (g : generator) (st : store) :
  at_position g0 base k g st ->
  exists k', at_position g0 base k' (run E evs g st).1.1 (run E evs g st).1.2 /\
             k' + g_queue (run E evs g st).1.1 <= k + g_queue g + count_next evs.
Proof.
  revert k g st. induction evs as [|ev evs IH]; intros k g st Hp; simpl.
  - exists k. split; [exact Hp | lia].
  - destruct (step_position ev k g st Hp) as (k1 & Hp1 & Hk1).
    destruct (step E ev g st) as [[g1 st1] rs1]. simpl in *.
    destruct (IH k1 g1 st1 Hp1) as (k2 & Hp2 & Hk2).
    destruct (run E evs g1 st1) as [[g2 st2] rs2]. simpl in *.
    exists k2. split; [exact Hp2|].
    unfold count_next in *. simpl. destruct (is_next ev); simpl; lia.
Qed.

End Lazy.

(** C5: the generator is lazy.  Creating an instance fetches nothing, and
    in every run of a fresh instance, whatever the consumer and the network
    do, the requests issued are the first [k] planned URLs, primary first,
    for some [k] no larger than the number of elements the consumer asked
    for: a resource is fetched only once the consumer has asked for the
    corresponding element. *)
Theorem generate_bundles_lazy (E : engine) (f : bundle_generator)
    (resourceIds : list string) (evs : list event) (st : store) :
  let g := generate_bundles f resourceIds in
  exists k, k <= count_next evs /\
    requests (run E evs g st).1.2 = requests st ++ take k (planned_urls g).
Proof.
  intros g.
  assert (H0 : at_position g (requests st) 0 g st).
  { repeat split; simpl; auto. now rewrite app_nil_r. }
  destruct (run_position E g (requests st) evs 0 g st H0) as (k & (_ & _ & Hreq & _) & Hk).
  exists k. split; [simpl in Hk; lia | exact Hreq].
Qed.

(** After the primary bundle has been delivered and before the consumer
    asks again, the primary URL is the only one fetched. *)
Example generate_bundles_lazy_primary :
  requests (run sample_engine [Next; Settle (Responded 200 "hello = Hola")]
              (generate_bundles (create_bundle_generator "es-MX" ["en-US"; "en-GB"] 0)
                                ["loc/{locale}/main.ftl"])
              empty_store).1.2
  = ["loc/es_MX/main.ftl"].
Proof. reflexivity. Qed.

(** ** A consumer that awaits each element *)

Section Await.

Variable E : engine.
Variable net : network.

Lemma next_locale_not_awaiting (g : generator) (l : string) :
  next_locale g = Some l -> is_awaiting (g_state g) = false.
Proof. unfold next_locale. destruct (g_state g); simpl; congruence. Qed.

Lemma resume_next_locale (g : generator) (st : store) (l : string) :
  next_locale g = Some l ->
  resume g st = enter_create_bundle l (after_index g) g st.
Proof.
  unfold next_locale, resume, after_index.
  destruct (g_state g) as [|l' k|i|]; try discriminate.
  - now intros [= ->].
  - now intros ->.
Qed.

(** One awaited request on an instance that has an element left. *)
Lemma await_next_suspended (g : generator) (st : store) (l rid : string) :
  g_queue g = 0 -> next_locale g = Some l -> g_resourceIds g !! 0 = Some rid ->
  let url := fetch_url l rid in
  let settled :=
    create_bundle_settled E l (cap_errors (g_fun g))
      (net (length (requests st)) url) (log_request url st) in
  await_next E net g st =
  match settled.1 with
  | inl e =>
      ({| g_fun := g_fun g; g_resourceIds := g_resourceIds g;
          g_state := Completed; g_queue := 0 |}, settled.2, [Throw e])
  | inr b =>
      ({| g_fun := g_fun g; g_resourceIds := g_resourceIds g;
          g_state := SuspendedYield (after_index g); g_queue := 0 |},
       settled.2, [Yield b])
  end.
Proof.
  intros Hq Hl Hrid url settled. unfold await_next, next.
  rewrite (next_locale_not_awaiting g l Hl), (resume_next_locale g st l Hl).
  unfold enter_create_bundle, create_bundle_start. rewrite Hrid. simpl.
  rewrite last_last. fold url. unfold settle. simpl. fold settled.
  destruct settled as [[e|b] st2]; simpl; rewrite Hq; reflexivity.
Qed.

(** One awaited request on an instance whose loop has run out. *)
Lemma await_next_exhausted (g : generator) (st : store) (i : nat) :
  g_state g = SuspendedYield i -> cap_fallback_locales (g_fun g) !! i = None ->
  await_next E net g st = (set_state Completed g, st, [Done]).
Proof.
  intros Hs Hn. unfold await_next, next, resume. rewrite Hs. simpl. now rewrite Hn.
Qed.

Lemma await_next_completed (g : generator) (st : store) :
  g_state g = Completed -> await_next E net g st = (g, st, [Done]).
Proof.
  intros Hs. unfold await_next, next, resume. rewrite Hs. simpl. now rewrite Hs.
Qed.

(** A completed instance stays completed: it is not restartable. *)
Lemma pull_completed (n : nat) (g : generator) (st : store) :
  g_state g = Completed -> pull E net n g st = (g, st, repeat Done n).
Proof.
  intros Hs. induction n as [|n IH]; simpl; [reflexivity|].
  now rewrite (await_next_completed g st Hs), IH.
Qed.

Lemma run_completed (evs : list event) (g : generator) (st : store) :
  g_state g = Completed -> run E evs g st = (g, st, repeat Done (count_next evs)).
Proof.
  intros Hs. induction evs as [|[|out] evs IH]; simpl; [reflexivity| |].
  - unfold next, resume. rewrite Hs. simpl. now rewrite IH.
  - unfold settle. rewrite Hs. now rewrite IH.
Qed.

Lemma expected_bundles_cons (base : nat) (rid l : string) (ls : list string) :
  expected_bundles net base rid (l :: ls) =
  {| bundle_locale := l; bundle_resource := body_of (net base (fetch_url l rid)) |}
  :: expected_bundles net (S base) rid ls.
Proof.
  unfold expected_bundles. rewrite imap_cons, Nat.add_0_r. f_equal.
  apply imap_ext. intros i x _. simpl. now rewrite Nat.add_succ_r.
Qed.

Lemma expected_bundles_locales (base : nat) (rid : string) (ls : list string) :
  map bundle_locale (expected_bundles net base rid ls) = ls.
Proof.
  revert base. induction ls as [|l ls IH]; intros base; [reflexivity|].
  rewrite expected_bundles_cons. simpl. now rewrite IH.
Qed.

Hypothesis net_responds : forall i url, responds (net i url) = true.

Lemma await_next_responds (g : generator) (st : store) (l rid : string) :
  g_queue g = 0 -> next_locale g = Some l -> g_resourceIds g !! 0 = Some rid ->
  exists st',
    await_next E net g st =
    ({| g_fun := g_fun g; g_resourceIds := g_resourceIds g;
        g_state := SuspendedYield (after_index g); g_queue := 0 |}, st',
     [Yield {| bundle_locale := l;
               bundle_resource := body_of (net (length (requests st)) (fetch_url l rid)) |}])
    /\ requests st' = requests st ++ [fetch_url l rid].
Proof.
  intros Hq Hl Hrid. rewrite (await_next_suspended g st l rid Hq Hl Hrid).
  specialize (net_responds (length (requests st)) (fetch_url l rid)).
  destruct (net (length (requests st)) (fetch_url l rid)) as [e|s e|status text];
    try discriminate.
  rewrite create_bundle_settled_responded. simpl. eexists. split; reflexivity.
Qed.

(** From a [yield], the loop delivers the remaining fallbacks in order and
    then reports completion for ever. *)
Lemma pull_fallbacks (ls : list string) (n i : nat) (rid : string)
    (g : generator) (st : store) :
  g_state g = SuspendedYield i -> g_queue g = 0 ->
  g_resourceIds g !! 0 = Some rid ->
  drop i (cap_fallback_locales (g_fun g)) = ls ->
  (pull E net (length ls + n) g st).2 =
  map Yield (expected_bundles net (length (requests st)) rid ls) ++ repeat Done n.
Proof.
  revert i g st. induction ls as [|l ls IH]; intros i g st Hs Hq Hrid Hdrop.
  - assert (Hnone : cap_fallback_locales (g_fun g) !! i = None).
    { apply lookup_ge_None. now apply drop_nil_inv. }
    destruct n as [|n]; [reflexivity|]. simpl.
    rewrite (await_next_exhausted g st i Hs Hnone).
    rewrite pull_completed by reflexivity. reflexivity.
  - assert (Hl : cap_fallback_locales (g_fun g) !! i = Some l).
    { rewrite <- (Nat.add_0_r i), <- lookup_drop, Hdrop. reflexivity. }
    assert (Hnl : next_locale g = Some l) by (unfold next_locale; now rewrite Hs).
    destruct (await_next_responds g st l rid Hq Hnl Hrid) as (st' & Heq & Hreq).
    rewrite expected_bundles_cons.
    change (length (l :: ls) + n) with (S (length ls + n)).
    cbn [pull]. rewrite Heq.
    match goal with |- context [pull E net _ ?g1 st'] => specialize (IH (S i) g1 st') end.
    unfold after_index in *. rewrite Hs in *.
    destruct (pull E net (length ls + n) _ st') as [[g2 st2] rs2] eqn:Hpull.
    cbn [fst snd map app] in *. f_equal.
    rewrite IH; auto.
    + rewrite Hreq, length_app. cbn [length]. now rewrite Nat.add_1_r.
    + cbn [g_fun]. rewrite <- (Nat.add_1_r i), <- drop_drop, Hdrop. reflexivity.
Qed.

End Await.

(** ** The sequence of bundles *)

(** C3: when every fetch is answered, a consumer that awaits each element
    receives the primary locale's bundle first, then one bundle per
    fallback in the order of the fallback list, and after these
    [1 + length fallback_locales] elements only the end of the sequence. *)
Theorem generate_bundles_in_order (E : engine) (net : network)
    (locale : string) (fallback_locales : list string) (errors : loc)
    (rid : string) (rest : list string) (st : store) (n : nat) :
  (forall i url, responds (net i url) = true) ->
  let g := generate_bundles (create_bundle_generator locale fallback_locales errors)
                            (rid :: rest) in
  let bs := expected_bundles net (length (requests st)) rid (locale :: fallback_locales) in
  (pull E net (S (length fallback_locales) + n) g st).2 = map Yield bs ++ repeat Done n /\
  map bundle_locale bs = locale :: fallback_locales /\
  length bs = 1 + length fallback_locales.
Proof.
  intros Hnet g bs. split; [|split].
  - assert (Hnl : next_locale g = Some locale) by reflexivity.
    destruct (await_next_responds E net Hnet g st locale rid eq_refl Hnl eq_refl)
      as (st' & Heq & Hreq).
    subst bs. rewrite expected_bundles_cons.
    change (S (length fallback_locales) + n) with (S (length fallback_locales + n)).
    cbn [pull]. rewrite Heq.
    match goal with |- context [pull E net _ ?g1 st'] =>
      pose proof (pull_fallbacks E net Hnet fallback_locales n 0 rid g1 st'
                    eq_refl eq_refl eq_refl eq_refl) as Hrest
    end.
    destruct (pull E net (length fallback_locales + n) _ st') as [[g2 st2] rs2].
    cbn [fst snd map app] in *. f_equal. rewrite Hrest.
    rewrite Hreq, length_app. cbn [length]. now rewrite Nat.add_1_r.
  - apply expected_bundles_locales.
  - subst bs. unfold expected_bundles. now rewrite length_imap.
Qed.

Lemma generate_bundles_in_order_sample :
  (forall i url, responds (net_ok i url) = true) /\
  (pull sample_engine net_ok 5 sample_generator sample_store).2 =
  [Yield {| bundle_locale := "es-MX"; bundle_resource := "hello = Hola" |};
   Yield {| bundle_locale := "en-US"; bundle_resource := "hello = Hola" |};
   Yield {| bundle_locale := "en-GB"; bundle_resource := "hello = Hola" |};
   Done; Done].
Proof.
  assert (H : forall i url, responds (net_ok i url) = true) by (intros; reflexivity).
  split; [exact H|].
  exact (proj1 (generate_bundles_in_order sample_engine net_ok "es-MX" ["en-US"; "en-GB"] 0
                  "loc/{locale}/main.ftl" [] sample_store 2 H)).
Defined.

(** ** Failures of the fetch *)

(** C4, as the code has it: when the fetch for the next locale is rejected
    (the request fails, or reading the body fails), the awaited request
    settles with that very error after a single fetch, the instance is
    completed, and from then on every request reports the end of the
    sequence without touching the store, so no fallback is fetched. *)
Theorem fetch_rejection_is_fatal (E : engine) (net : network) (g : generator)
    (st : store) (l rid : string) (e : js_error) :
  g_queue g = 0 -> next_locale g = Some l -> g_resourceIds g !! 0 = Some rid ->
  fetch_resource_settled (net (length (requests st)) (fetch_url l rid)) = inl e ->
  exists g' st',
    await_next E net g st = (g', st', [Throw e]) /\
    requests st' = requests st ++ [fetch_url l rid] /\
    forall evs, run E evs g' st' = (g', st', repeat Done (count_next evs)).
Proof.
  intros Hq Hl Hrid He.
  rewrite (await_next_suspended E net g st l rid Hq Hl Hrid).
  rewrite (create_bundle_settled_rejected E _ _ _ e _ He). cbn [fst snd].
  eexists _, _. split; [reflexivity|]. split; [reflexivity|].
  intros evs. now apply run_completed.
Qed.

Lemma fetch_rejection_is_fatal_primary :
  g_queue sample_generator = 0 /\
  next_locale sample_generator = Some "es-MX" /\
  g_resourceIds sample_generator !! 0 = Some "loc/{locale}/main.ftl" /\
  fetch_resource_settled
    (net_down (length (requests sample_store)) (fetch_url "es-MX" "loc/{locale}/main.ftl"))
  = inl network_down /\
  exists g' st',
    await_next sample_engine net_down sample_generator sample_store
    = (g', st', [Throw network_down]) /\
    requests st' = requests sample_store ++ [fetch_url "es-MX" "loc/{locale}/main.ftl"] /\
    forall evs, run sample_engine evs g' st' = (g', st', repeat Done (count_next evs)).
Proof.
  split; [reflexivity|]. split; [reflexivity|]. split; [reflexivity|].
  split; [reflexivity|].
  exact (fetch_rejection_is_fatal sample_engine net_down sample_generator sample_store
           "es-MX" "loc/{locale}/main.ftl" network_down
           eq_refl eq_refl eq_refl eq_refl).
Defined.

(** C4 as stated fails for HTTP failures: a response with an HTTP error
    status is not a failure for this code, its body is taken as the
    resource and a bundle is yielded instead of an error. *)
Lemma http_error_status_yields_bundle :
  (await_next sample_engine net_404 sample_generator sample_store).2
  = [Yield {| bundle_locale := "es-MX"; bundle_resource := "Not Found" |}] /\
  forall e, (await_next sample_engine net_404 sample_generator sample_store).2 <> [Throw e].
Proof. split; [reflexivity | intros e; discriminate]. Qed.

(** C9: the bundle is constructed with the locale as given; only the URL
    carries the normalized form. *)
Theorem bundle_keeps_original_locale (E : engine) (net : network) (g : generator)
    (st : store) (l rid : string) (status : nat) (text : string) :
  g_queue g = 0 -> next_locale g = Some l -> g_resourceIds g !! 0 = Some rid ->
  net (length (requests st)) (fetch_url l rid) = Responded status text ->
  exists g' st',
    await_next E net g st =
    (g', st', [Yield {| bundle_locale := l; bundle_resource := text |}]) /\
    requests st' = requests st ++ [JsString.replace "{locale}" (normalize_locale l) rid].
Proof.
  intros Hq Hl Hrid Hnet.
  rewrite (await_next_suspended E net g st l rid Hq Hl Hrid), Hnet.
  rewrite create_bundle_settled_responded. cbn [fst snd].
  eexists _, _. split; reflexivity.
Qed.

Lemma bundle_keeps_original_locale_es_MX :
  g_queue sample_generator = 0 /\
  next_locale sample_generator = Some "es-MX" /\
  g_resourceIds sample_generator !! 0 = Some "loc/{locale}/main.ftl" /\
  net_ok (length (requests sample_store)) (fetch_url "es-MX" "loc/{locale}/main.ftl")
  = Responded 200 "hello = Hola" /\
  exists g' st',
    await_next sample_engine net_ok sample_generator sample_store =
    (g', st', [Yield {| bundle_locale := "es-MX"; bundle_resource := "hello = Hola" |}]) /\
    requests st' = requests sample_store ++
                   [JsString.replace "{locale}" (normalize_locale "es-MX") "loc/{locale}/main.ftl"].
Proof.
  split; [reflexivity|]. split; [reflexivity|]. split; [reflexivity|].
  split; [reflexivity|].
  exact (bundle_keeps_original_locale sample_engine net_ok sample_generator sample_store
           "es-MX" "loc/{locale}/main.ftl" 200 "hello = Hola"
           eq_refl eq_refl eq_refl eq_refl).
Defined.

(** ** The error containers *)

(** C1, what the code does instead of appending: after the bundle for a
    resource with one rejected entry has been constructed from the
    container [{entries: []}], the bundle is there, but [entries] is the
    string form of the error, the array that was in [entries] is still
    empty, and a second construction glues the next string form to the
    first without a separator. *)
Theorem create_bundle_entries_become_string :
  let r1 := create_bundle_settled sample_engine "es-MX" 0 (Responded 200 "!bad") sample_store in
  let r2 := create_bundle_settled sample_engine "en-US" 0 (Responded 200 "!bad") r1.2 in
  get_entries 0 sample_store = VArray 0 /\
  r1.1 = inr {| bundle_locale := "es-MX"; bundle_resource := "!bad" |} /\
  add_resource sample_engine "es-MX" "!bad" = [junk_error] /\
  get_entries 0 r1.2 = VString "Error: junk" /\
  array_elems 0 r1.2 = [] /\
  get_entries 0 r2.2 = VString "Error: junkError: junk" /\
  array_elems 0 r2.2 = [] /\
  console r1.2 =
    map (fun c => "Error creating bundle for locale es-MX" +:+ c) (chars "Error: junk").
Proof. vm_compute. repeat split. Qed.

Section Containers.

Variable E : engine.

Lemma ask_frame (n : nat) (g : generator) (st : store) :
  g_fun (ask E n g st).1 = g_fun g /\
  arrays (ask E n g st).2 = arrays st /\ objects (ask E n g st).2 = objects st.
Proof.
  unfold ask. revert g st. induction n as [|n IH]; intros g st; simpl; auto.
  assert (Hn : g_fun (next g st).1.1 = g_fun g /\
               arrays (next g st).1.2 = arrays st /\
               objects (next g st).1.2 = objects st).
  { unfold next. destruct (is_awaiting (g_state g)); simpl; auto.
    destruct (resume_frame g st) as (Hf & _ & _ & Ha & Ho). auto. }
  destruct (next g st) as [[g1 st1] rs1]. simpl in Hn.
  specialize (IH g1 st1).
  destruct (run E (repeat Next n) g1 st1) as [[g2 st2] rs2]. simpl in *.
  destruct Hn as (? & ? & ?), IH as (? & ? & ?). repeat split; congruence.
Qed.

(** What [init_localization] allocates and returns. *)
Lemma init_localization_layout (tpl locale : string) (fb : list string) (st : store) :
  let r := init_localization E tpl locale fb st in
  let a_d := fresh (base.dom (arrays st)) in
  let o_d := fresh (base.dom (objects st)) in
  let a_m := fresh (base.dom (<[a_d := []]> (arrays st))) in
  let o_m := fresh (base.dom (<[o_d := VArray a_d]> (objects st))) in
  h_generateBundles (dom r.1) = create_bundle_generator locale fb o_d /\
  h_generateBundles (main r.1) = create_bundle_generator locale fb o_m /\
  h_resourceIds (dom r.1) = [tpl] /\ h_resourceIds (main r.1) = [tpl] /\
  dom_errors r.1 = VArray a_d /\ main_errors r.1 = VArray a_m /\
  arrays r.2 = <[a_m := []]> (<[a_d := []]> (arrays st)) /\
  objects r.2 = <[o_m := VArray a_m]> (<[o_d := VArray a_d]> (objects st)).
Proof.
  intros r a_d o_d a_m o_m. subst r. unfold init_localization.
  cbn [alloc_array alloc_object arrays objects requests console].
  fold a_d. fold o_d. fold a_m. fold o_m.
  set (st4 := {| arrays := <[a_m:=[]]> (<[a_d:=[]]> (arrays st));
                 objects := <[o_m:=VArray a_m]> (<[o_d:=VArray a_d]> (objects st));
                 requests := requests st; console := console st |}).
  unfold new_Localization, translateRoots.
  pose proof (ask_frame (ctor_requests E)
    (generate_bundles (create_bundle_generator locale fb o_d) [tpl]) st4) as H5.
  destruct (ask E (ctor_requests E) _ st4) as [g5 st5]. cbn [fst snd] in H5.
  cbn [h_bundles h_resourceIds h_generateBundles].
  pose proof (ask_frame (translate_requests E) g5 st5) as H6.
  destruct (ask E (translate_requests E) g5 st5) as [g6 st6]. cbn [fst snd] in H6.
  pose proof (ask_frame (ctor_requests E)
    (generate_bundles (create_bundle_generator locale fb o_m) [tpl]) st6) as H7.
  destruct (ask E (ctor_requests E) _ st6) as [g7 st7]. cbn [fst snd] in H7.
  destruct H5 as (_ & Ha5 & Ho5), H6 as (_ & Ha6 & Ho6), H7 as (_ & Ha7 & Ho7).
  assert (Hobj : objects st7 = objects st4) by congruence.
  assert (Harr : arrays st7 = arrays st4) by congruence.
  cbn [fst snd dom main dom_errors main_errors h_generateBundles h_resourceIds].
  unfold get_entries. rewrite Hobj, Harr. subst st4. cbn [objects arrays].
  assert (Hne : o_m <> o_d).
  { intros Heq. pose proof (is_fresh (base.dom (<[o_d:=VArray a_d]> (objects st)))) as Hfr.
    fold o_m in Hfr. rewrite Heq in Hfr. apply Hfr.
    rewrite dom_insert_L. set_solver. }
  rewrite lookup_insert_eq, lookup_insert_ne, lookup_insert_eq by exact Hne.
  repeat split; reflexivity.
Qed.

Lemma fresh_insert_ne {V : Type} (m : gmap loc V) (v : V) :
  fresh (base.dom (<[fresh (base.dom m) := v]> m)) <> fresh (base.dom m).
Proof.
  intros Heq. pose proof (is_fresh (base.dom (<[fresh (base.dom m) := v]> m))) as Hfr.
  rewrite Heq in Hfr. apply Hfr. rewrite dom_insert_L. set_solver.
Qed.

End Containers.

Lemma to_string_same_arrays (v : value) (st st' : store) :
  arrays st' = arrays st -> to_string v st' = to_string v st.
Proof. intros H. destruct v; simpl; auto. unfold array_elems. now rewrite H. Qed.

(** A run of an instance leaves every container but its own as it was. *)
Lemma run_other_container (E : engine) (evs : list event) (g : generator)
    (st : store) (o : loc) :
  o <> cap_errors (g_fun g) ->
  get_entries o (run E evs g st).1.2 = get_entries o st /\
  to_string (get_entries o (run E evs g st).1.2) (run E evs g st).1.2
  = to_string (get_entries o st) st.
Proof.
  intros Hne. destruct (run_frame E evs g st) as (_ & _ & Ha & Ho).
  assert (Hget : get_entries o (run E evs g st).1.2 = get_entries o st)
    by (unfold get_entries; now rewrite Ho).
  split; [exact Hget|]. rewrite Hget. now apply to_string_same_arrays.
Qed.

(** C6: [init_localization] builds two generator functions with the same
    locale and fallback list and with two different, freshly allocated
    error containers holding two different arrays; whatever happens while
    any instance of the DOM generator runs, the formatter's container keeps
    its value and its string form, and the other way round. *)
Theorem init_localization_independent_errors (E : engine) (tpl locale : string)
    (fb : list string) (st : store) :
  let r := (init_localization E tpl locale fb st).1 in
  let f_dom := h_generateBundles (dom r) in
  let f_main := h_generateBundles (main r) in
  f_dom = create_bundle_generator locale fb (cap_errors f_dom) /\
  f_main = create_bundle_generator locale fb (cap_errors f_main) /\
  cap_errors f_dom <> cap_errors f_main /\
  objects st !! cap_errors f_dom = None /\ objects st !! cap_errors f_main = None /\
  dom_errors r <> main_errors r /\
  (forall rids s q evs w,
     let g := {| g_fun := f_dom; g_resourceIds := rids; g_state := s; g_queue := q |} in
     let w' := (run E evs g w).1.2 in
     get_entries (cap_errors f_main) w' = get_entries (cap_errors f_main) w /\
     to_string (get_entries (cap_errors f_main) w') w'
     = to_string (get_entries (cap_errors f_main) w) w) /\
  (forall rids s q evs w,
     let g := {| g_fun := f_main; g_resourceIds := rids; g_state := s; g_queue := q |} in
     let w' := (run E evs g w).1.2 in
     get_entries (cap_errors f_dom) w' = get_entries (cap_errors f_dom) w /\
     to_string (get_entries (cap_errors f_dom) w') w'
     = to_string (get_entries (cap_errors f_dom) w) w).
Proof.
  intros r f_dom f_main.
  destruct (init_localization_layout E tpl locale fb st)
    as (Hd & Hm & _ & _ & Hde & Hme & _ & _).
  fold r in Hd, Hm, Hde, Hme. fold f_dom in Hd. fold f_main in Hm.
  assert (Hne : cap_errors f_dom <> cap_errors f_main).
  { rewrite Hd, Hm. cbn [cap_errors create_bundle_generator].
    intros Heq. symmetry in Heq. revert Heq. apply fresh_insert_ne. }
  assert (Hfresh : forall (m : gmap loc value), m !! fresh (base.dom m) = None).
  { intros m. apply not_elem_of_dom. apply is_fresh. }
  split; [rewrite Hd; reflexivity|]. split; [rewrite Hm; reflexivity|].
  split; [exact Hne|].
  split; [rewrite Hd; apply Hfresh|].
  split.
  { rewrite Hm. cbn [cap_errors create_bundle_generator].
    match goal with |- _ !! fresh (base.dom ?m) = None =>
      pose proof (Hfresh m) as Hf; rewrite lookup_insert_ne in Hf; [exact Hf|]
    end.
    intros Heq. symmetry in Heq. revert Heq. apply fresh_insert_ne. }
  split.
  { rewrite Hde, Hme. intros [= Heq]. symmetry in Heq. revert Heq. apply fresh_insert_ne. }
  split; intros rids s q evs w g w'; subst w';
    apply run_other_container; subst g; cbn [g_fun]; congruence.
Qed.

(** C8: the values returned as [dom_errors] and [main_errors] are the two
    arrays the containers hold when [init_localization] returns, both
    empty; a bundle construction replaces the [entries] property of its
    container by a string and changes no array, and no run of any
    generator instance changes an array: the arrays the caller received
    stay as they were. *)
Theorem returned_error_arrays_never_modified (E : engine) (tpl locale : string)
    (fb : list string) (st : store) :
  let r := init_localization E tpl locale fb st in
  exists a_dom a_main,
    dom_errors r.1 = VArray a_dom /\ main_errors r.1 = VArray a_main /\
    get_entries (cap_errors (h_generateBundles (dom r.1))) r.2 = VArray a_dom /\
    get_entries (cap_errors (h_generateBundles (main r.1))) r.2 = VArray a_main /\
    arrays r.2 !! a_dom = Some [] /\ arrays r.2 !! a_main = Some [] /\
    (forall l errors status text w,
       let w' := (create_bundle_settled E l errors (Responded status text) w).2 in
       (exists s, get_entries errors w' = VString s) /\ arrays w' = arrays w) /\
    (forall g evs w, arrays (run E evs g w).1.2 = arrays w).
Proof.
  intros r.
  destruct (init_localization_layout E tpl locale fb st)
    as (Hd & Hm & _ & _ & Hde & Hme & Harr & Hobj).
  fold r in Hd, Hm, Hde, Hme, Harr, Hobj.
  eexists _, _. split; [exact Hde|]. split; [exact Hme|].
  assert (Hne := fresh_insert_ne (objects st) (VArray (fresh (base.dom (arrays st))))).
  assert (Hna := fresh_insert_ne (arrays st) []).
  split; [|split; [|split; [|split; [|split]]]].
  - rewrite Hd. unfold get_entries. rewrite Hobj. cbn [cap_errors create_bundle_generator].
    rewrite lookup_insert_ne, lookup_insert_eq by exact Hne. reflexivity.
  - rewrite Hm. unfold get_entries. rewrite Hobj. cbn [cap_errors create_bundle_generator].
    now rewrite lookup_insert_eq.
  - rewrite Harr. now rewrite lookup_insert_ne, lookup_insert_eq by exact Hna.
  - rewrite Harr. now rewrite lookup_insert_eq.
  - intros l errors status text w w'. subst w'.
    rewrite create_bundle_settled_responded. cbn [snd].
    split; [|reflexivity].
    eexists. unfold console_log, get_entries, set_entries, js_plus_array; simpl.
    now rewrite lookup_insert_eq.
  - intros g evs w. now destruct (run_frame E evs g w) as (_ & _ & Ha & _).
Qed.

(** The caller's arrays after a complete iteration that met an error. *)
Example returned_arrays_stay_empty :
  let r := init_localization sample_engine "loc/{locale}/main.ftl" "es-MX" ["en-US"] empty_store in
  let w := (run sample_engine [Settle (Responded 200 "!bad"); Settle (Responded 200 "!bad")]
              (h_bundles (dom r.1)) r.2).1.2 in
  dom_errors r.1 = VArray 0 /\ array_elems 0 w = [] /\
  get_entries (cap_errors (h_generateBundles (dom r.1))) w = VString "Error: junkError: junk".
Proof. vm_compute. repeat split. Qed.

(** ** get_user_locales *)

(** C7: a fallback that is given (a non-empty string) is forwarded to the
    detection library as [fallbackLocale], with [useFallbackLocale] set;
    without a fallback the library is called without options.  Nothing
    else happens: the result is the library's. *)
Theorem get_user_locales_delegates (E : engine) (fallback : string) :
  fallback <> "" ->
  get_user_locales E (Some fallback) =
    getUserLocales E (Some {| fallbackLocale := fallback; useFallbackLocale := true |}) /\
  get_user_locales E None = getUserLocales E None.
Proof.
  intros Hne. split; [|reflexivity]. unfold get_user_locales.
  now rewrite (proj2 (String.eqb_neq fallback "") Hne).
Qed.

Lemma get_user_locales_delegates_en_US :
  "en-US" <> "" /\
  get_user_locales sample_engine (Some "en-US") =
    getUserLocales sample_engine
      (Some {| fallbackLocale := "en-US"; useFallbackLocale := true |}) /\
  get_user_locales sample_engine None = getUserLocales sample_engine None.
Proof.
  assert (H : "en-US" <> "") by discriminate.
  split; [exact H|].
  exact (get_user_locales_delegates sample_engine "en-US" H).
Defined.

(** The test [if (fallback)] takes the empty string for a missing argument. *)
Example get_user_locales_empty_string (E : engine) :
  get_user_locales E (Some "") = getUserLocales E None.
Proof. reflexivity. Qed.

(** * Further properties *)

(** ** The resource path *)

Section PathFacts.

Import JsString.

Lemma count_hyphens_append (s t : string) :
  count_hyphens (s +:+ t) = count_hyphens s + count_hyphens t.
Proof. induction s as [|c s IH]; simpl; [reflexivity | rewrite IH; lia]. Qed.

Lemma strip_prefix_hyphen (c : ascii) (s : string) :
  strip_prefix "-" (String c s) = if Ascii.eqb c "-" then Some s else None.
Proof.
  cbn [strip_prefix]. rewrite (Ascii.eqb_sym "-" c).
  destruct (Ascii.eqb c "-"); reflexivity.
Qed.

(** Where the search for a hyphen stops. *)
Lemma split_first_hyphen (s : string) :
  match split_first "-" s with
  | Some (b, a) => s = b +:+ "-" +:+ a /\ count_hyphens b = 0
  | None => count_hyphens s = 0
  end.
Proof.
  induction s as [|c s IH]; rewrite split_first_unfold; [reflexivity|].
  rewrite strip_prefix_hyphen. cbn [count_hyphens].
  destruct (Ascii.eqb c "-") eqn:Hc.
  - apply Ascii.eqb_eq in Hc. subst c. split; reflexivity.
  - destruct (split_first "-" s) as [[b a]|].
    + destruct IH as [-> Hb]. cbn [count_hyphens]. rewrite Hc.
      split; [reflexivity | exact Hb].
    + exact IH.
Qed.

Lemma normalize_locale_no_hyphen (locale : string) :
  count_hyphens locale = 0 -> normalize_locale locale = locale.
Proof.
  intros H0. unfold normalize_locale, replace.
  pose proof (split_first_hyphen locale) as Hs.
  destruct (split_first "-" locale) as [[b a]|]; [|reflexivity].
  destruct Hs as [-> _]. rewrite !count_hyphens_append in H0. simpl in H0. lia.
Qed.

(** X1: a locale without a hyphen, the underscore form included, reaches
    the path as it is. *)
Theorem fetch_url_underscore_locale (locale template p q : string) :
  count_hyphens locale = 0 ->
  locale_tag locale = true ->
  first_at "{locale}" p q template ->
  fetch_url locale template = p +:+ locale +:+ q.
Proof.
  intros H0 Ht Hp.
  rewrite (fetch_url_first_at locale template p q);
    [|now apply locale_tag_no_dollar | exact Hp].
  now rewrite normalize_locale_no_hyphen.
Qed.

Lemma fetch_url_underscore_locale_en_US :
  count_hyphens "en_US" = 0 /\
  locale_tag "en_US" = true /\
  first_at "{locale}" "loc/" "/main.ftl" "loc/{locale}/main.ftl" /\
  fetch_url "en_US" "loc/{locale}/main.ftl" = "loc/en_US/main.ftl".
Proof.
  assert (H1 : count_hyphens "en_US" = 0) by reflexivity.
  assert (H2 : locale_tag "en_US" = true) by reflexivity.
  assert (H3 : first_at "{locale}" "loc/" "/main.ftl" "loc/{locale}/main.ftl")
    by (apply split_first_sound; reflexivity).
  split; [exact H1 | split; [exact H2 | split; [exact H3 |]]].
  exact (fetch_url_underscore_locale _ _ _ _ H1 H2 H3).
Defined.

(** X2: normalization removes exactly one hyphen, if there is one, and
    keeps the length: a tag with several hyphens keeps all but the first. *)
Theorem normalize_locale_one_hyphen (locale : string) :
  count_hyphens (normalize_locale locale) = Nat.pred (count_hyphens locale) /\
  String.length (normalize_locale locale) = String.length locale.
Proof.
  unfold normalize_locale, replace.
  pose proof (split_first_hyphen locale) as Hs.
  destruct (split_first "-" locale) as [[b a]|].
  - destruct Hs as [-> Hb]. simpl get_substitution.
    rewrite !count_hyphens_append, !length_append, Hb. simpl. split; lia.
  - rewrite Hs. split; reflexivity.
Qed.

(** A template without the placeholder, fetched for en-US. *)
Lemma fetch_url_no_placeholder_static :
  (forall b a, "theme/main.ftl" <> b +:+ "{locale}" +:+ a) /\
  fetch_url "en-US" "theme/main.ftl" = "theme/main.ftl".
Proof.
  assert (H : forall b a, "theme/main.ftl" <> b +:+ "{locale}" +:+ a)
    by (intros b a; apply split_first_None; reflexivity).
  split; [exact H|].
  exact (fetch_url_no_placeholder "en-US" "theme/main.ftl" H).
Defined.

Lemma get_substitution_app_literal (m b a r1 r2 : string) :
  has_dollar r1 = false ->
  get_substitution m b a (r1 +:+ r2) = r1 +:+ get_substitution m b a r2.
Proof.
  induction r1 as [|c r IH]; intros Hd; [reflexivity|].
  simpl in Hd. apply orb_false_elim in Hd as [Hc Hr].
  change (String c r +:+ r2) with (String c (r +:+ r2)).
  cbn [get_substitution]. rewrite Hc, (IH Hr). reflexivity.
Qed.

(** X4: the locale is the replacement text of [replace], so a [$&] in it
    is not copied: the placeholder itself comes back in its place. *)
Theorem fetch_url_pattern_restores_placeholder (s1 s2 template p q : string) :
  has_dollar s1 = false -> has_dollar s2 = false ->
  count_hyphens s1 = 0 -> count_hyphens s2 = 0 ->
  first_at "{locale}" p q template ->
  fetch_url (s1 +:+ "$&" +:+ s2) template = p +:+ (s1 +:+ "{locale}" +:+ s2) +:+ q.
Proof.
  intros Hd1 Hd2 Hh1 Hh2 Hp. unfold fetch_url.
  rewrite normalize_locale_no_hyphen
    by (rewrite !count_hyphens_append, Hh1, Hh2; reflexivity).
  unfold replace. rewrite (split_first_complete _ _ _ _ Hp).
  rewrite get_substitution_app_literal by exact Hd1.
  change ("$&" +:+ s2) with (String "$" (String "&" s2)).
  cbn [get_substitution]. simpl Ascii.eqb. cbn iota.
  rewrite (get_substitution_literal _ _ _ s2 Hd2).
  now rewrite !append_assoc.
Qed.

Lemma fetch_url_pattern_restores_placeholder_en :
  has_dollar "en" = false /\ has_dollar "" = false /\
  count_hyphens "en" = 0 /\ count_hyphens "" = 0 /\
  first_at "{locale}" "loc/" "/main.ftl" "loc/{locale}/main.ftl" /\
  fetch_url "en$&" "loc/{locale}/main.ftl" = "loc/en{locale}/main.ftl".
Proof.
  assert (H : first_at "{locale}" "loc/" "/main.ftl" "loc/{locale}/main.ftl")
    by (apply split_first_sound; reflexivity).
  split; [reflexivity|]. split; [reflexivity|]. split; [reflexivity|].
  split; [reflexivity|]. split; [exact H|].
  exact (fetch_url_pattern_restores_placeholder "en" "" _ _ _
           eq_refl eq_refl eq_refl eq_refl H).
Defined.

End PathFacts.

(** ** Runs of an instance: a scheme for invariants *)

Section RunInvariant.

Variable E : engine.
Variable P : nat -> generator -> store -> list iter_result -> Prop.

Hypothesis P_queue : forall s g st rs q,
  P s g st rs -> P s (set_queue q g) st rs.
Hypothesis P_mono : forall s g st rs, P s g st rs -> P (S s) g st rs.
Hypothesis P_resume : forall s g st rs,
  P s g st rs -> is_awaiting (g_state g) = false ->
  P s (resume g st).1.1 (resume g st).1.2 (rs ++ (resume g st).2).
Hypothesis P_settle : forall s g st rs l i out r st1,
  P s g st rs -> g_state g = AwaitingFetch l i ->
  create_bundle_settled E l (cap_errors (g_fun g)) out st = (r, st1) ->
  match r with
  | inl e => P (S s) (set_state Completed g) st1 (rs ++ [Throw e])
  | inr b => P (S s) (set_state (SuspendedYield i) g) st1 (rs ++ [Yield b])
  end.

Lemma drain_invariant (n s : nat) (g : generator) (st : store) (rs : list iter_result) :
  P s g st rs -> is_awaiting (g_state g) = false ->
  P s (drain n g st).1.1 (drain n g st).1.2 (rs ++ (drain n g st).2).
Proof.
  revert g st rs. induction n as [|n IH]; intros g st rs HP Hna; simpl.
  - rewrite app_nil_r. now apply P_queue.
  - pose proof (P_resume s g st rs HP Hna) as H1.
    destruct (resume g st) as [[g1 st1] rs1]. simpl in H1.
    destruct (is_awaiting (g_state g1)) eqn:Haw; simpl.
    + now apply P_queue.
    + specialize (IH g1 st1 (rs ++ rs1) H1 Haw).
      destruct (drain n g1 st1) as [[g2 st2] rs2]. simpl in *.
      now rewrite app_assoc.
Qed.

Lemma step_invariant (ev : event) (s : nat) (g : generator) (st : store)
    (rs : list iter_result) :
  P s g st rs ->
  P (s + (if is_settle ev then 1 else 0))
    (step E ev g st).1.1 (step E ev g st).1.2 (rs ++ (step E ev g st).2).
Proof.
  intros HP. destruct ev as [|out]; simpl.
  - rewrite Nat.add_0_r. unfold next.
    destruct (is_awaiting (g_state g)) eqn:Haw; simpl.
    + rewrite app_nil_r. now apply P_queue.
    + now apply P_resume.
  - rewrite Nat.add_1_r. unfold settle.
    destruct (g_state g) as [|l i|i|] eqn:Hs; simpl;
      try (rewrite app_nil_r; now apply P_mono).
    destruct (create_bundle_settled E l (cap_errors (g_fun g)) out st) as [r st1] eqn:Hc.
    pose proof (P_settle s g st rs l i out r st1 HP Hs Hc) as H1.
    destruct r as [e|b].
    + pose proof (drain_invariant (g_queue (set_state Completed g)) (S s)
                    (set_state Completed g) st1 (rs ++ [Throw e]) H1 eq_refl) as H2.
      destruct (drain _ (set_state Completed g) st1) as [[g2 st2] rs2]. simpl in *.
      now rewrite <- app_assoc in H2.
    + pose proof (drain_invariant (g_queue (set_state (SuspendedYield i) g)) (S s)
                    (set_state (SuspendedYield i) g) st1 (rs ++ [Yield b]) H1 eq_refl) as H2.
      destruct (drain _ (set_state (SuspendedYield i) g) st1) as [[g2 st2] rs2]. simpl in *.
      now rewrite <- app_assoc in H2.
Qed.

Lemma run_invariant (evs : list event) (s : nat) (g : generator) (st : store)
    (rs : list iter_result) :
  P s g st rs ->
  P (s + count_settle evs)
    (run E evs g st).1.1 (run E evs g st).1.2 (rs ++ (run E evs g st).2).
Proof.
  revert s g st rs. induction evs as [|ev evs IH]; intros s g st rs HP; simpl.
  - rewrite Nat.add_0_r, app_nil_r. exact HP.
  - pose proof (step_invariant ev s g st rs HP) as H1.
    destruct (step E ev g st) as [[g1 st1] rs1]. simpl in H1.
    specialize (IH _ g1 st1 _ H1).
    destruct (run E evs g1 st1) as [[g2 st2] rs2]. simpl in *.
    rewrite app_assoc.
    replace (s + count_settle (ev :: evs))
      with (s + (if is_settle ev then 1 else 0) + count_settle evs); [exact IH|].
    unfold count_settle. simpl. destruct (is_settle ev); simpl; lia.
Qed.

End RunInvariant.

(** ** Results of a run *)

Lemma yielded_app (rs rs' : list iter_result) :
  yielded (rs ++ rs') = yielded rs ++ yielded rs'.
Proof.
  induction rs as [|[b| |e] rs IH]; simpl; [reflexivity| | |]; now rewrite ?IH.
Qed.

Lemma all_yield_ends_once (rs rs' : list iter_result) :
  forallb is_yield rs = true -> ends_once (rs ++ rs') = ends_once rs'.
Proof.
  induction rs as [|[b| |e] rs IH]; simpl; auto; discriminate.
Qed.

Lemma ends_once_app_done (rs : list iter_result) :
  ends_once rs = true -> ends_once (rs ++ [Done]) = true.
Proof.
  induction rs as [|[b| |e] rs IH]; simpl; auto;
    intros H; rewrite forallb_app, H; reflexivity.
Qed.

Lemma all_yield_snoc (rs : list iter_result) (b : bundle) :
  forallb is_yield rs = true -> forallb is_yield (rs ++ [Yield b]) = true.
Proof. intros H. rewrite forallb_app, H. reflexivity. Qed.

Section Progress.

Variable E : engine.
Variable g0 : generator.
Variable base : list string.

Lemma progress_queue (s : nat) (g : generator) (st : store) (rs : list iter_result) (q : nat) :
  progress g0 base s g st rs -> progress g0 base s (set_queue q g) st rs.
Proof. intros H. exact H. Qed.

Lemma progress_mono (s : nat) (g : generator) (st : store) (rs : list iter_result) :
  progress g0 base s g st rs -> progress g0 base (S s) g st rs.
Proof.
  intros (Hf & Hi & k & j & Hreq & Hy & He & Hst).
  split; [exact Hf|]. split; [exact Hi|]. exists k, j.
  repeat (split; [assumption|]).
  destruct (g_state g); intuition lia.
Qed.

(** Entering [create_bundle] for the locale at position [i] of the chain. *)
Lemma progress_enter (s i : nat) (l : string) (g : generator) (st : store)
    (rs : list iter_result) :
  g_fun g = g_fun g0 -> g_resourceIds g = g_resourceIds g0 ->
  requests st = base ++ take i (planned_urls g0) ->
  map bundle_locale (yielded rs) = take i (chain (g_fun g0)) ->
  forallb is_yield rs = true -> i <= s ->
  chain (g_fun g0) !! i = Some l ->
  progress g0 base s (enter_create_bundle l i g st).1.1
                     (enter_create_bundle l i g st).1.2
                     (rs ++ (enter_create_bundle l i g st).2).
Proof.
  intros Hf Hi Hreq Hy Hall His Hl.
  unfold enter_create_bundle, create_bundle_start. rewrite Hi.
  destruct (g_resourceIds g0 !! 0) as [rid|] eqn:Hrid; simpl.
  - rewrite app_nil_r. split; [exact Hf|]. split; [exact Hi|].
    exists (S i), i. simpl.
    assert (Hp : planned_urls g0 !! i = Some (fetch_url l rid)).
    { unfold planned_urls. rewrite Hrid. fold (chain (g_fun g0)).
      now rewrite list_lookup_fmap, Hl. }
    split; [rewrite Hreq, (take_S_r _ _ _ Hp); now rewrite app_assoc|].
    split; [exact Hy|]. split; [now rewrite <- (app_nil_r rs), all_yield_ends_once|].
    repeat split; auto; lia.
  - split; [exact Hf|]. split; [exact Hi|]. exists i, i. simpl.
    split; [exact Hreq|].
    split; [rewrite yielded_app; simpl; now rewrite app_nil_r|].
    split; [now rewrite all_yield_ends_once|]. exact His.
Qed.

Lemma progress_resume (s : nat) (g : generator) (st : store) (rs : list iter_result) :
  progress g0 base s g st rs -> is_awaiting (g_state g) = false ->
  progress g0 base s (resume g st).1.1 (resume g st).1.2 (rs ++ (resume g st).2).
Proof.
  intros (Hf & Hi & k & j & Hreq & Hy & He & Hst) Hna. unfold resume.
  destruct (g_state g) as [|l i|i|] eqn:Hs; try discriminate.
  - destruct Hst as (-> & -> & Hall).
    apply progress_enter; auto; [lia | now rewrite Hf].
  - destruct Hst as (-> & -> & Hk & Hall).
    destruct (cap_fallback_locales (g_fun g) !! i) as [entry|] eqn:Hfb.
    + apply progress_enter; auto. unfold chain. simpl. now rewrite <- Hf.
    + simpl. split; [exact Hf|]. split; [exact Hi|]. exists (S i), (S i). simpl.
      split; [exact Hreq|].
      split; [rewrite yielded_app; simpl; now rewrite app_nil_r|].
      split; [now apply ends_once_app_done | exact Hk].
  - simpl. split; [exact Hf|]. split; [exact Hi|]. exists k, j.
    split; [exact Hreq|].
    split; [rewrite yielded_app; simpl; now rewrite app_nil_r|].
    split; [now apply ends_once_app_done|]. now rewrite Hs.
Qed.

Lemma progress_settle (s : nat) (g : generator) (st : store) (rs : list iter_result)
    (l : string) (i : nat) (out : fetch_outcome) (r : js_error + bundle) (st1 : store) :
  progress g0 base s g st rs -> g_state g = AwaitingFetch l i ->
  create_bundle_settled E l (cap_errors (g_fun g)) out st = (r, st1) ->
  match r with
  | inl e => progress g0 base (S s) (set_state Completed g) st1 (rs ++ [Throw e])
  | inr b => progress g0 base (S s) (set_state (SuspendedYield i) g) st1 (rs ++ [Yield b])
  end.
Proof.
  intros (Hf & Hi & k & j & Hreq & Hy & He & Hst) Hs Hc. rewrite Hs in Hst.
  destruct Hst as (-> & -> & Hk & Hl & Hall).
  pose proof (create_bundle_settled_frame E l (cap_errors (g_fun g)) out st) as [_ Hr].
  rewrite Hc in Hr. simpl in Hr.
  destruct r as [e|b].
  - split; [exact Hf|]. split; [exact Hi|]. exists (S i), i. simpl.
    split; [now rewrite Hr|].
    split; [rewrite yielded_app; simpl; now rewrite app_nil_r|].
    split; [now rewrite all_yield_ends_once | exact Hk].
  - assert (Hb : bundle_locale b = l).
    { destruct out as [e|st' e|status text]; simpl in Hc; try (inversion Hc; fail).
      rewrite create_bundle_settled_responded in Hc. now inversion Hc. }
    split; [exact Hf|]. split; [exact Hi|]. exists (S i), (S i).
    cbn [set_state g_state].
    split; [now rewrite Hr|].
    split.
    { rewrite yielded_app, map_app, Hy. cbn [yielded map]. rewrite Hb.
      symmetry. now apply take_S_r. }
    split; [rewrite all_yield_ends_once by exact Hall; reflexivity|].
    repeat split; auto. now apply all_yield_snoc.
Qed.

Lemma run_progress (evs : list event) (s : nat) (g : generator) (st : store)
    (rs : list iter_result) :
  progress g0 base s g st rs ->
  progress g0 base (s + count_settle evs)
    (run E evs g st).1.1 (run E evs g st).1.2 (rs ++ (run E evs g st).2).
Proof.
  apply (run_invariant E (progress g0 base)).
  - apply progress_queue.
  - apply progress_mono.
  - apply progress_resume.
  - apply progress_settle.
Qed.

End Progress.

Lemma progress_fresh (f : bundle_generator) (resourceIds : list string) (st : store) :
  let g := generate_bundles f resourceIds in
  progress g (requests st) 0 g st [].
Proof.
  intros g. split; [reflexivity|]. split; [reflexivity|]. exists 0, 0. simpl.
  rewrite app_nil_r. repeat split; reflexivity.
Qed.

(** X5: at most one fetch of an instance is unsettled at any time: in every
    run of a fresh instance the requests it issued number at most one more
    than the settlements, however many elements the consumer asked for. *)
Theorem one_fetch_in_flight (E : engine) (f : bundle_generator)
    (resourceIds : list string) (evs : list event) (st : store) :
  length (requests (run E evs (generate_bundles f resourceIds) st).1.2)
  <= length (requests st) + S (count_settle evs).
Proof.
  pose proof (run_progress E _ _ evs 0 _ st [] (progress_fresh f resourceIds st))
    as (_ & _ & k & j & Hreq & _ & _ & Hst).
  rewrite Hreq, length_app, length_take.
  assert (Hle : k <= S (count_settle evs)).
  { destruct (g_state (run E evs (generate_bundles f resourceIds) st).1.1);
      simpl in Hst; intuition lia. }
  lia.
Qed.

(** X6: in every run of a fresh instance, whatever the network does, the
    locales of the bundles delivered are an initial part of the chain
    "primary, then fallbacks in order": no locale is skipped, repeated out
    of turn or delivered before an earlier one. *)
Theorem yielded_locales_follow_chain (E : engine) (f : bundle_generator)
    (resourceIds : list string) (evs : list event) (st : store) :
  exists j,
    map bundle_locale (yielded (run E evs (generate_bundles f resourceIds) st).2)
    = take j (chain f).
Proof.
  pose proof (run_progress E _ _ evs 0 _ st [] (progress_fresh f resourceIds st))
    as (_ & _ & k & j & _ & Hy & _ & _).
  exists j. exact Hy.
Qed.

(** X7: in every run of a fresh instance the results end at most once:
    bundles come first, and after the first error or end of sequence every
    later request is answered with the end of sequence.  A rejected fetch
    therefore ends the iteration; the fallbacks after it are never
    delivered. *)
Theorem results_end_once (E : engine) (f : bundle_generator)
    (resourceIds : list string) (evs : list event) (st : store) :
  ends_once (run E evs (generate_bundles f resourceIds) st).2 = true.
Proof.
  pose proof (run_progress E _ _ evs 0 _ st [] (progress_fresh f resourceIds st))
    as (_ & _ & k & j & _ & _ & He & _).
  exact He.
Qed.

(** ** Every request is answered once *)

Section Accounting.

Variable E : engine.

Lemma resume_accounted (g : generator) (st : store) :
  is_awaiting (g_state g) = false ->
  length (resume g st).2 + (if is_awaiting (g_state (resume g st).1.1) then 1 else 0) = 1.
Proof.
  intros Hna. unfold resume, enter_create_bundle, create_bundle_start.
  destruct (g_state g) as [|l i|i|] eqn:Hs; try discriminate.
  - destruct (g_resourceIds g !! 0); reflexivity.
  - destruct (cap_fallback_locales (g_fun g) !! i); [|reflexivity].
    destruct (g_resourceIds g !! 0); reflexivity.
  - simpl. now rewrite Hs.
Qed.

Lemma drain_accounted (n : nat) (g : generator) (st : store) :
  is_awaiting (g_state g) = false ->
  accounted (drain n g st).1.1 (drain n g st).2 = n.
Proof.
  revert g st. induction n as [|n IH]; intros g st Hna; simpl.
  - unfold accounted. simpl. now rewrite Hna.
  - pose proof (resume_accounted g st Hna) as H1.
    destruct (resume g st) as [[g1 st1] rs1]. simpl in H1.
    destruct (is_awaiting (g_state g1)) eqn:Haw; simpl.
    + unfold accounted. simpl. rewrite Haw. lia.
    + specialize (IH g1 st1 Haw).
      destruct (drain n g1 st1) as [[g2 st2] rs2]. unfold accounted in *. simpl in *.
      rewrite length_app. lia.
Qed.

Lemma step_accounted (ev : event) (g : generator) (st : store) (rs : list iter_result) :
  accounted (step E ev g st).1.1 (rs ++ (step E ev g st).2)
  = accounted g rs + (if is_next ev then 1 else 0).
Proof.
  destruct ev as [|out]; simpl.
  - unfold next. destruct (is_awaiting (g_state g)) eqn:Haw; simpl.
    + unfold accounted. simpl. rewrite Haw, app_nil_r. lia.
    + pose proof (resume_accounted g st Haw) as H1.
      destruct (resume_frame g st) as (_ & _ & Hq & _).
      unfold accounted. rewrite Haw, length_app, Hq. lia.
  - unfold settle. destruct (g_state g) as [|l i|i|] eqn:Hs; simpl;
      try (unfold accounted; rewrite app_nil_r, Hs; simpl; lia).
    destruct (create_bundle_settled E l (cap_errors (g_fun g)) out st) as [r st1].
    destruct r as [e|b].
    + pose proof (drain_accounted (g_queue g) (set_state Completed g) st1 eq_refl) as H1.
      simpl. destruct (drain (g_queue g) (set_state Completed g) st1) as [[g2 st2] rs2].
      unfold accounted in *. simpl in *. rewrite Hs, !length_app. simpl. lia.
    + pose proof (drain_accounted (g_queue g) (set_state (SuspendedYield i) g) st1 eq_refl) as H1.
      simpl. destruct (drain (g_queue g) (set_state (SuspendedYield i) g) st1) as [[g2 st2] rs2].
      unfold accounted in *. simpl in *. rewrite Hs, !length_app. simpl. lia.
Qed.

Lemma run_accounted (evs : list event) (g : generator) (st : store) (rs : list iter_result) :
  accounted (run E evs g st).1.1 (rs ++ (run E evs g st).2)
  = accounted g rs + count_next evs.
Proof.
  revert g st rs. induction evs as [|ev evs IH]; intros g st rs; simpl.
  - rewrite app_nil_r. unfold count_next. simpl. lia.
  - pose proof (step_accounted ev g st rs) as H1.
    destruct (step E ev g st) as [[g1 st1] rs1]. simpl in H1.
    specialize (IH g1 st1 (rs ++ rs1)).
    destruct (run E evs g1 st1) as [[g2 st2] rs2]. simpl in *.
    rewrite app_assoc, IH, H1. unfold count_next. simpl.
    destruct (is_next ev); simpl; lia.
Qed.

End Accounting.

(** X8: no request is lost or answered twice: in every run of a fresh
    instance, the results delivered, plus one if a fetch is pending, plus
    the requests waiting in the queue, are as many as the [next()] calls. *)
Theorem every_request_accounted (E : engine) (f : bundle_generator)
    (resourceIds : list string) (evs : list event) (st : store) :
  let r := run E evs (generate_bundles f resourceIds) st in
  length r.2 + (if is_awaiting (g_state r.1.1) then 1 else 0) + g_queue r.1.1
  = count_next evs.
Proof.
  intros r. subst r.
  pose proof (run_accounted E evs (generate_bundles f resourceIds) st []) as H.
  unfold accounted in H. simpl in H. exact H.
Qed.

(** ** Resource ids *)

(** X9: with an empty list of resource ids nothing is ever fetched and no
    bundle is delivered: the first request fails with a [TypeError], every
    later one reports the end of the sequence, and the store stays as it
    was. *)
Theorem no_resource_id_no_fetch (E : engine) (f : bundle_generator)
    (evs : list event) (st : store) :
  (run E evs (generate_bundles f []) st).1.2 = st /\
  (run E evs (generate_bundles f []) st).2 =
    match count_next evs with
    | 0 => []
    | S n => Throw type_error :: repeat Done n
    end.
Proof.
  induction evs as [|[|out] evs IH].
  - split; reflexivity.
  - assert (Hstep : step E Next (generate_bundles f []) st
                    = (set_state Completed (generate_bundles f []), st, [Throw type_error]))
      by reflexivity.
    cbn [run]. rewrite Hstep.
    rewrite (run_completed E evs (set_state Completed (generate_bundles f [])) st eq_refl).
    split; reflexivity.
  - cbn [run step]. unfold settle. cbn [generate_bundles g_state].
    destruct (run E evs (generate_bundles f []) st) as [[g2 st2] rs2].
    simpl in *. exact IH.
Qed.

Section OtherResourceIds.

Variable E : engine.

Lemma same_outcome_intro (g g' : generator) (st : store) (rs : list iter_result) :
  same_but_rest g g' -> same_outcome (g, st, rs) (g', st, rs).
Proof. intros H. split; [exact H|]. split; reflexivity. Qed.

Lemma same_but_rest_set_state (s : gen_state) (g g' : generator) :
  same_but_rest g g' -> same_but_rest (set_state s g) (set_state s g').
Proof. intros (Hf & Hs & Hq & Hr). repeat split; simpl; auto. Qed.

Lemma same_but_rest_set_queue (n : nat) (g g' : generator) :
  same_but_rest g g' -> same_but_rest (set_queue n g) (set_queue n g').
Proof. intros (Hf & Hs & Hq & Hr). repeat split; simpl; auto. Qed.

Lemma enter_same (l : string) (k : nat) (g g' : generator) (st : store) :
  same_but_rest g g' ->
  same_outcome (enter_create_bundle l k g st) (enter_create_bundle l k g' st).
Proof.
  intros Hs. pose proof Hs as (_ & _ & _ & Hr).
  unfold enter_create_bundle. rewrite Hr.
  destruct (create_bundle_start l (g_resourceIds g' !! 0) st);
    apply same_outcome_intro; now apply same_but_rest_set_state.
Qed.

Lemma resume_same (g g' : generator) (st : store) :
  same_but_rest g g' -> same_outcome (resume g st) (resume g' st).
Proof.
  intros Hs. pose proof Hs as (Hf & Hst & _ & _).
  unfold resume. rewrite Hst, Hf.
  destruct (g_state g') as [|l i|i|].
  - now apply enter_same.
  - now apply same_outcome_intro.
  - destruct (cap_fallback_locales (g_fun g') !! i).
    + now apply enter_same.
    + apply same_outcome_intro. now apply same_but_rest_set_state.
  - now apply same_outcome_intro.
Qed.

Lemma drain_same (n : nat) (g g' : generator) (st : store) :
  same_but_rest g g' -> same_outcome (drain n g st) (drain n g' st).
Proof.
  revert g g' st. induction n as [|n IH]; intros g g' st Hs; simpl.
  - apply same_outcome_intro. now apply same_but_rest_set_queue.
  - pose proof (resume_same g g' st Hs) as (H1 & H2 & H3).
    destruct (resume g st) as [[g1 st1] rs1], (resume g' st) as [[g1' st1'] rs1'].
    simpl in H1, H2, H3. subst st1' rs1'.
    pose proof H1 as (_ & Hst & _ & _). rewrite Hst.
    destruct (is_awaiting (g_state g1')).
    + apply same_outcome_intro. now apply same_but_rest_set_queue.
    + specialize (IH g1 g1' st1 H1).
      destruct (drain n g1 st1) as [[g2 st2] rs2], (drain n g1' st1) as [[g2' st2'] rs2'].
      destruct IH as (I1 & I2 & I3). simpl in I1, I2, I3. subst st2' rs2'.
      now apply same_outcome_intro.
Qed.

Lemma step_same (ev : event) (g g' : generator) (st : store) :
  same_but_rest g g' -> same_outcome (step E ev g st) (step E ev g' st).
Proof.
  intros Hs. pose proof Hs as (Hf & Hst & Hq & _).
  destruct ev as [|out]; simpl.
  - unfold next. rewrite Hst, Hq. destruct (is_awaiting (g_state g')).
    + apply same_outcome_intro. now apply same_but_rest_set_queue.
    + now apply resume_same.
  - unfold settle. rewrite Hst, Hf.
    destruct (g_state g') as [|l i|i|]; try now apply same_outcome_intro.
    destruct (create_bundle_settled E l (cap_errors (g_fun g')) out st) as [[e|b] st1].
    + simpl. rewrite Hq.
      pose proof (drain_same (g_queue g') _ _ st1
                    (same_but_rest_set_state Completed g g' Hs)) as Hd.
      destruct (drain (g_queue g') (set_state Completed g) st1) as [[g2 st2] rs2],
               (drain (g_queue g') (set_state Completed g') st1) as [[g2' st2'] rs2'].
      destruct Hd as (I1 & I2 & I3). simpl in I1, I2, I3. subst st2' rs2'.
      now apply same_outcome_intro.
    + simpl. rewrite Hq.
      pose proof (drain_same (g_queue g') _ _ st1
                    (same_but_rest_set_state (SuspendedYield i) g g' Hs)) as Hd.
      destruct (drain (g_queue g') (set_state (SuspendedYield i) g) st1) as [[g2 st2] rs2],
               (drain (g_queue g') (set_state (SuspendedYield i) g') st1) as [[g2' st2'] rs2'].
      destruct Hd as (I1 & I2 & I3). simpl in I1, I2, I3. subst st2' rs2'.
      now apply same_outcome_intro.
Qed.

Lemma run_same (evs : list event) (g g' : generator) (st : store) :
  same_but_rest g g' -> same_outcome (run E evs g st) (run E evs g' st).
Proof.
  revert g g' st. induction evs as [|ev evs IH]; intros g g' st Hs; simpl.
  - now apply same_outcome_intro.
  - pose proof (step_same ev g g' st Hs) as (H1 & H2 & H3).
    destruct (step E ev g st) as [[g1 st1] rs1], (step E ev g' st) as [[g1' st1'] rs1'].
    simpl in H1, H2, H3. subst st1' rs1'.
    specialize (IH g1 g1' st1 H1).
    destruct (run E evs g1 st1) as [[g2 st2] rs2], (run E evs g1' st1) as [[g2' st2'] rs2'].
    destruct IH as (I1 & I2 & I3). simpl in I1, I2, I3. subst st2' rs2'.
    now apply same_outcome_intro.
Qed.

End OtherResourceIds.

(** X10: only the first resource id is used: a run with further ids
    delivers the same results and leaves the same store, request log
    included, as the run with the first id alone. *)
Theorem other_resource_ids_ignored (E : engine) (f : bundle_generator)
    (rid : string) (rest : list string) (evs : list event) (st : store) :
  (run E evs (generate_bundles f (rid :: rest)) st).1.2
  = (run E evs (generate_bundles f [rid]) st).1.2 /\
  (run E evs (generate_bundles f (rid :: rest)) st).2
  = (run E evs (generate_bundles f [rid]) st).2.
Proof.
  assert (Hs : same_but_rest (generate_bundles f (rid :: rest)) (generate_bundles f [rid]))
    by (repeat split).
  destruct (run_same E evs _ _ st Hs) as (_ & H2 & H3). split; assumption.
Qed.

(** ** What the container holds after an iteration *)

Section Entries.

Variable E : engine.
Variable net : network.
Hypothesis net_responds : forall i url, responds (net i url) = true.

Lemma await_next_entries (g : generator) (st : store) (l rid : string) :
  g_queue g = 0 -> next_locale g = Some l -> g_resourceIds g !! 0 = Some rid ->
  let b := {| bundle_locale := l;
              bundle_resource := body_of (net (length (requests st)) (fetch_url l rid)) |} in
  exists st',
    await_next E net g st =
    ({| g_fun := g_fun g; g_resourceIds := g_resourceIds g;
        g_state := SuspendedYield (after_index g); g_queue := 0 |}, st', [Yield b])
    /\ requests st' = requests st ++ [fetch_url l rid]
    /\ get_entries (cap_errors (g_fun g)) st'
       = VString (to_string (get_entries (cap_errors (g_fun g)) st) st +:+ errors_text E b).
Proof.
  intros Hq Hl Hrid b. subst b.
  rewrite (await_next_suspended E net g st l rid Hq Hl Hrid).
  specialize (net_responds (length (requests st)) (fetch_url l rid)).
  destruct (net (length (requests st)) (fetch_url l rid)) as [e|s e|status text];
    try discriminate.
  rewrite create_bundle_settled_responded. cbn [fst snd body_of].
  eexists. split; [reflexivity|]. split; [reflexivity|].
  unfold get_entries, console_log, set_entries, js_plus_array. cbn [objects].
  rewrite lookup_insert_eq. reflexivity.
Qed.

Lemma pull_fallbacks_entries (ls : list string) (i : nat) (rid s0 : string)
    (g : generator) (st : store) :
  g_state g = SuspendedYield i -> g_queue g = 0 ->
  g_resourceIds g !! 0 = Some rid ->
  drop i (cap_fallback_locales (g_fun g)) = ls ->
  get_entries (cap_errors (g_fun g)) st = VString s0 ->
  get_entries (cap_errors (g_fun g)) (pull E net (length ls) g st).1.2
  = VString (s0 +:+ entries_text E (expected_bundles net (length (requests st)) rid ls)).
Proof.
  revert i s0 g st. induction ls as [|l ls IH]; intros i s0 g st Hs Hq Hrid Hdrop Hent.
  - simpl. now rewrite append_nil_r.
  - assert (Hl : cap_fallback_locales (g_fun g) !! i = Some l).
    { rewrite <- (Nat.add_0_r i), <- lookup_drop, Hdrop. reflexivity. }
    assert (Hnl : next_locale g = Some l) by (unfold next_locale; now rewrite Hs).
    destruct (await_next_entries g st l rid Hq Hnl Hrid) as (st' & Heq & Hreq & Hent').
    rewrite expected_bundles_cons.
    change (length (l :: ls)) with (S (length ls)).
    cbn [pull]. rewrite Heq.
    match goal with |- context [pull E net _ ?g1 st'] =>
      specialize (IH (S i) (s0 +:+ errors_text E
                     {| bundle_locale := l;
                        bundle_resource := body_of (net (length (requests st)) (fetch_url l rid)) |})
                     g1 st')
    end.
    unfold after_index in *. rewrite Hs in *.
    destruct (pull E net (length ls) _ st') as [[g2 st2] rs2] eqn:Hpull.
    cbn [fst snd g_fun] in *.
    rewrite IH; auto.
    + cbn [entries_text]. rewrite Hreq, length_app. cbn [length].
      now rewrite Nat.add_1_r, append_assoc.
    + rewrite <- (Nat.add_1_r i), <- drop_drop, Hdrop. reflexivity.
    + rewrite Hent', Hent. reflexivity.
Qed.

End Entries.

(** X11: after a complete iteration in which every fetch is answered, the
    [entries] property of the container is a string: the string form of
    what it held before, followed by the comma-joined errors of each
    bundle in order, with nothing between one bundle's errors and the
    next.  For a container that started as [{entries: []}] and an engine
    that reports no error it is the empty string, not an empty array. *)
Theorem entries_after_iteration (E : engine) (net : network)
    (locale : string) (fallback_locales : list string) (errors : loc)
    (rid : string) (rest : list string) (st : store) :
  (forall i url, responds (net i url) = true) ->
  let g := generate_bundles (create_bundle_generator locale fallback_locales errors)
                            (rid :: rest) in
  let bs := expected_bundles net (length (requests st)) rid (locale :: fallback_locales) in
  get_entries errors (pull E net (S (length fallback_locales)) g st).1.2
  = VString (to_string (get_entries errors st) st +:+ entries_text E bs).
Proof.
  intros Hnet g bs.
  assert (Hnl : next_locale g = Some locale) by reflexivity.
  destruct (await_next_entries E net Hnet g st locale rid eq_refl Hnl eq_refl)
    as (st' & Heq & Hreq & Hent).
  subst bs. rewrite expected_bundles_cons.
  cbn [pull]. rewrite Heq.
  match goal with |- context [pull E net _ ?g1 st'] =>
    pose proof (pull_fallbacks_entries E net Hnet fallback_locales 0 rid _ g1 st'
                  eq_refl eq_refl eq_refl eq_refl Hent) as Hrest
  end.
  destruct (pull E net (length fallback_locales) _ st') as [[g2 st2] rs2].
  cbn [fst snd g_fun] in Hrest |- *. change (cap_errors (g_fun g)) with errors in Hrest.
  rewrite Hrest. cbn [entries_text].
  rewrite Hreq, length_app. cbn [length]. now rewrite Nat.add_1_r, append_assoc.
Qed.

Lemma entries_after_iteration_sample :
  (forall i url, responds (net_ok i url) = true) /\
  get_entries 0 (pull sample_engine net_ok 3 sample_generator sample_store).1.2
  = VString "".
Proof.
  assert (H : forall i url, responds (net_ok i url) = true) by (intros; reflexivity).
  split; [exact H|].
  exact (entries_after_iteration sample_engine net_ok "es-MX" ["en-US"; "en-GB"] 0
           "loc/{locale}/main.ftl" [] sample_store H).
Defined.

(** ** What initialization fetches and leaves alone *)

Section InitRequests.

Variable E : engine.

Lemma ask_S (n : nat) (g : generator) (st : store) :
  ask E (S n) g st = ask E n (next g st).1.1 (next g st).1.2.
Proof.
  unfold ask. cbn [repeat run step].
  destruct (next g st) as [[g1 st1] rs1]. cbn [fst snd].
  destruct (run E (repeat Next n) g1 st1) as [[g2 st2] rs2]. reflexivity.
Qed.

(** Requests made while a fetch is pending only lengthen the queue. *)
Lemma ask_awaiting (n : nat) (g : generator) (st : store) :
  is_awaiting (g_state g) = true ->
  ask E n g st = (set_queue (g_queue g + n) g, st).
Proof.
  revert g. induction n as [|n IH]; intros g Haw.
  - unfold ask. simpl. rewrite Nat.add_0_r. now destruct g.
  - rewrite ask_S. unfold next. rewrite Haw. cbn [fst snd].
    rewrite IH by exact Haw. unfold set_queue. simpl. do 2 f_equal. lia.
Qed.

(** The first request to a fresh instance starts the primary fetch. *)
Lemma ask_fresh (n : nat) (g : generator) (st : store) (rid : string) :
  g_state g = SuspendedStart -> g_resourceIds g !! 0 = Some rid ->
  ask E (S n) g st =
  (set_queue (g_queue g + n) (set_state (AwaitingFetch (cap_locale (g_fun g)) 0) g),
   log_request (fetch_url (cap_locale (g_fun g)) rid) st).
Proof.
  intros Hs Hrid. rewrite ask_S. unfold next, resume. rewrite Hs. cbn [is_awaiting].
  unfold enter_create_bundle, create_bundle_start. rewrite Hrid. cbn [fst snd].
  now rewrite ask_awaiting.
Qed.

End InitRequests.

(** X12: during [init_localization] at most two fetches are issued, one
    per handle and both for the primary locale, however many elements the
    engine asks for before it returns; nothing is logged.  No fallback is
    fetched during initialization. *)
Theorem init_localization_requests (E : engine) (tpl locale : string)
    (fb : list string) (st : store) :
  let st' := (init_localization E tpl locale fb st).2 in
  let u := fetch_url locale tpl in
  requests st' =
    requests st
    ++ (if Nat.eqb (ctor_requests E + translate_requests E) 0 then [] else [u])
    ++ (if Nat.eqb (ctor_requests E) 0 then [] else [u]) /\
  console st' = console st.
Proof.
  intros st' u. subst st'. unfold init_localization.
  cbn [alloc_array alloc_object arrays objects requests console].
  unfold new_Localization, translateRoots.
  destruct (ctor_requests E) as [|c], (translate_requests E) as [|t].
  - cbn [ask repeat run fst snd h_bundles requests console Nat.add Nat.eqb].
    now rewrite app_nil_r.
  - change (ask E 0 ?g ?s) with (g, s). cbn [h_bundles].
    rewrite (ask_fresh E t _ _ tpl) by reflexivity.
    cbn [fst snd requests console log_request Nat.add Nat.eqb cap_locale
         create_bundle_generator generate_bundles g_fun].
    now rewrite app_nil_r.
  - rewrite (ask_fresh E c _ _ tpl) by reflexivity. cbn [h_bundles].
    change (ask E 0 ?g ?s) with (g, s). cbn [h_bundles].
    rewrite (ask_fresh E c _ _ tpl) by reflexivity.
    cbn [fst snd requests console log_request Nat.add Nat.eqb cap_locale
         create_bundle_generator generate_bundles g_fun].
    now rewrite <- app_assoc.
  - rewrite (ask_fresh E c _ _ tpl) by reflexivity. cbn [h_bundles].
    rewrite ask_awaiting by reflexivity. cbn [h_bundles].
    rewrite (ask_fresh E c _ _ tpl) by reflexivity.
    cbn [fst snd requests console log_request Nat.add Nat.eqb cap_locale
         create_bundle_generator generate_bundles g_fun].
    now rewrite <- app_assoc.
Qed.

(** X13: [init_localization] only adds to the store: every container and
    every array that existed before the call is there afterwards with the
    same content, those of an earlier call included. *)
Theorem init_localization_keeps_store (E : engine) (tpl locale : string)
    (fb : list string) (st : store) :
  objects st ⊆ objects (init_localization E tpl locale fb st).2 /\
  arrays st ⊆ arrays (init_localization E tpl locale fb st).2.
Proof.
  destruct (init_localization_layout E tpl locale fb st)
    as (_ & _ & _ & _ & _ & _ & Harr & Hobj).
  assert (Hfresh : forall (V : Type) (m : gmap loc V), m !! fresh (base.dom m) = None).
  { intros V m. apply not_elem_of_dom. apply is_fresh. }
  rewrite Harr, Hobj. split.
  - etransitivity; [|apply insert_subseteq, Hfresh]. apply insert_subseteq, Hfresh.
  - etransitivity; [|apply insert_subseteq, Hfresh]. apply insert_subseteq, Hfresh.
Qed.

(** ** The call to the detection library *)

(** X14: whatever the argument, [get_user_locales] is one call to the
    detection library and its result that call's: either without options,
    exactly when the argument is missing or the empty string, or with the
    argument as a non-empty [fallbackLocale] and [useFallbackLocale] set.
    It never passes an empty fallback and never switches the fallback off. *)
Theorem get_user_locales_call (fallback : option string) :
  exists arg,
    (forall E, get_user_locales E fallback = getUserLocales E arg) /\
    match arg with
    | None => fallback = None \/ fallback = Some ""
    | Some o =>
        fallback = Some (fallbackLocale o) /\ fallbackLocale o <> "" /\
        useFallbackLocale o = true
    end.
Proof.
  destruct fallback as [s|].
  - destruct (String.eqb_spec s "") as [->|Hne].
    + exists None. split; [reflexivity | now right].
    + exists (Some {| fallbackLocale := s; useFallbackLocale := true |}).
      split; [|repeat split; auto].
      intros E. unfold get_user_locales.
      now rewrite (proj2 (String.eqb_neq s "") Hne).
  - exists None. split; [reflexivity | now left].
Qed.
